(** * wpull.warc: the WARC record builder

    A shallow embedding of [src/wpull/warc.py] (class [WARCRecord]) and of
    the library primitives it calls: [hashlib.sha1], [base64.b32encode],
    a seekable binary stream, the ordered name/value container and the
    scoped cursor save/restore of [wpull.util]. *)

From Stdlib Require Import ZArith List String Ascii Lia Bool Arith.
From Stdlib.Strings Require Import Byte.
From Stdlib Require Import DecimalString Decimal DecimalPos DecimalZ.
Import ListNotations.
Local Open Scope Z_scope.

(** ** Bytes and text *)

(** A Python [bytes] value. *)
Definition bytes := list byte.

(** A byte as the integer [0..255] it stands for, and back. *)
Definition Z_of_byte (b : byte) : Z := Z.of_N (Byte.to_N b).

Definition byte_of_Z (z : Z) : byte :=
  match Byte.of_N (Z.to_N (Z.land z 255)) with
  | Some b => b
  | None => x00
  end.

(** [str.encode()] and [bytes.decode()] on ASCII text. *)
Definition encode (s : string) : bytes := list_byte_of_string s.
Definition decode (b : bytes) : string := string_of_list_byte b.

(** [str(n)] for an integer. *)
Definition str_of_int (z : Z) : string := NilZero.string_of_int (Z.to_int z).

(** ** hashlib.sha1 (FIPS 180-4) *)

Module SHA1.

Definition mask32 : Z := 4294967295.
Definition w32 (x : Z) : Z := Z.land x mask32.
Definition add32 (x y : Z) : Z := w32 (x + y).
Definition rotl (n x : Z) : Z :=
  w32 (Z.lor (Z.shiftl x n) (Z.shiftr x (32 - n))).

(** Big-endian packing of bytes into words and of words into bytes. *)
Definition word_of_bytes (a b c d : byte) : Z :=
  Z.lor (Z.shiftl (Z_of_byte a) 24)
    (Z.lor (Z.shiftl (Z_of_byte b) 16)
       (Z.lor (Z.shiftl (Z_of_byte c) 8) (Z_of_byte d))).

Definition bytes_of_word (w : Z) : bytes :=
  [byte_of_Z (Z.shiftr w 24); byte_of_Z (Z.shiftr w 16);
   byte_of_Z (Z.shiftr w 8); byte_of_Z w].

Fixpoint words_of_bytes (l : bytes) : list Z :=
  match l with
  | a :: b :: c :: d :: rest => word_of_bytes a b c d :: words_of_bytes rest
  | _ => []
  end.

(** Message padding: a one bit, zeros up to 56 mod 64, then the bit length
    as a 64-bit big-endian integer. *)
Definition pad (msg : bytes) : bytes :=
  let len := Z.of_nat (List.length msg) in
  let zeros := Z.to_nat ((55 - len) mod 64) in
  let bits := 8 * len in
  msg ++ [x80] ++ repeat x00 zeros
      ++ bytes_of_word (Z.shiftr bits 32) ++ bytes_of_word bits.

(** The message schedule: [win] holds the sixteen most recent words,
    oldest first. *)
Definition next_word (win : list Z) : Z :=
  rotl 1 (Z.lxor (Z.lxor (nth 13 win 0) (nth 8 win 0))
                 (Z.lxor (nth 2 win 0) (nth 0 win 0))).

Fixpoint schedule (n : nat) (win : list Z) : list Z :=
  match n with
  | O => []
  | S n' => let w := next_word win in w :: schedule n' (tl win ++ [w])
  end.

Definition expand (block : list Z) : list Z := block ++ schedule 64 block.

Definition f (t : nat) (b c d : Z) : Z :=
  if (t <? 20)%nat then Z.lor (Z.land b c) (Z.land (Z.lxor b mask32) d)
  else if (t <? 40)%nat then Z.lxor (Z.lxor b c) d
  else if (t <? 60)%nat then
    Z.lor (Z.lor (Z.land b c) (Z.land b d)) (Z.land c d)
  else Z.lxor (Z.lxor b c) d.

Definition K (t : nat) : Z :=
  if (t <? 20)%nat then 1518500249
  else if (t <? 40)%nat then 1859775393
  else if (t <? 60)%nat then 2400959708
  else 3395469782.

Record state := mk { ha : Z; hb : Z; hc : Z; hd : Z; he : Z }.

Definition H0 : state := mk 1732584193 4023233417 2562383102 271733878 3285377520.

Definition round (t : nat) (w : Z) (s : state) : state :=
  let tmp := add32 (add32 (add32 (add32 (rotl 5 (ha s)) (f t (hb s) (hc s) (hd s)))
                                 (he s)) w) (K t) in
  mk tmp (ha s) (rotl 30 (hb s)) (hc s) (hd s).

Fixpoint rounds (t : nat) (ws : list Z) (s : state) : state :=
  match ws with
  | [] => s
  | w :: ws' => rounds (S t) ws' (round t w s)
  end.

Definition compress (h : state) (block : list Z) : state :=
  let s := rounds 0 (expand block) h in
  mk (add32 (ha h) (ha s)) (add32 (hb h) (hb s)) (add32 (hc h) (hc s))
     (add32 (hd h) (hd s)) (add32 (he h) (he s)).

Fixpoint blocks (n : nat) (ws : list Z) (h : state) : state :=
  match n with
  | O => h
  | S n' =>
      match ws with
      | [] => h
      | _ => blocks n' (skipn 16 ws) (compress h (firstn 16 ws))
      end
  end.

(** The raw digest of a message. *)
Definition sha1 (msg : bytes) : bytes :=
  let ws := words_of_bytes (pad msg) in
  let h := blocks (List.length ws) ws H0 in
  bytes_of_word (ha h) ++ bytes_of_word (hb h) ++ bytes_of_word (hc h)
    ++ bytes_of_word (hd h) ++ bytes_of_word (he h).

End SHA1.

(** A [hashlib] hash object: [update] feeds data, [digest] hashes all the
    data fed so far; repeated updates are equivalent to one update with the
    concatenation. *)
Record Hasher := { fed : bytes }.

Definition sha1_new : Hasher := {| fed := [] |}.
Definition update (h : Hasher) (data : bytes) : Hasher :=
  {| fed := fed h ++ data |}.
Definition digest (h : Hasher) : bytes := SHA1.sha1 (fed h).

(** ** base64.b32encode (RFC 4648, standard alphabet, padded) *)

Module Base32.

Definition alphabet : bytes := encode "ABCDEFGHIJKLMNOPQRSTUVWXYZ234567".

Definition b32tab (i : Z) : byte := nth (Z.to_nat i) alphabet x00.

(** One five-byte quantum, read as a 40-bit big-endian integer, gives
    eight characters of five bits each. *)
Definition quantum (a b c d e : byte) : bytes :=
  let n := Z.lor (Z.shiftl (Z_of_byte a) 32)
             (Z.lor (Z.shiftl (Z_of_byte b) 24)
                (Z.lor (Z.shiftl (Z_of_byte c) 16)
                   (Z.lor (Z.shiftl (Z_of_byte d) 8) (Z_of_byte e)))) in
  map (fun k => b32tab (Z.land (Z.shiftr n k) 31)) [35; 30; 25; 20; 15; 10; 5; 0].

Fixpoint quanta (s : bytes) : bytes :=
  match s with
  | a :: b :: c :: d :: e :: rest => quantum a b c d e ++ quanta rest
  | _ => []
  end.

(** Number of trailing characters replaced by the pad character, by the
    number of bytes left over in the last quantum. *)
Definition padding (leftover : nat) : nat :=
  match leftover with
  | 1 => 6 | 2 => 4 | 3 => 3 | 4 => 1 | _ => 0
  end%nat.

Definition b32encode (s : bytes) : bytes :=
  let leftover := (List.length s mod 5)%nat in
  let s' := match leftover with
            | O => s
            | _ => s ++ repeat x00 (5 - leftover)
            end in
  let encoded := quanta s' in
  let p := padding leftover in
  firstn (List.length encoded - p) encoded ++ repeat "="%byte p.

End Base32.

(** ** A seekable binary stream (the block)

    The block is an in-memory byte stream in the manner of [io.BytesIO]:
    its contents, a read cursor (which [seek] may place beyond the end), and
    optionally the offset of one unreadable byte, so that a read can fail
    the way a read of a real file can. *)

Inductive Exn := AttributeError | OSError.

Inductive Result (A : Type) :=
| Ok (a : A)
| Raise (e : Exn)
| OutOfFuel.
Arguments Ok {A} a.
Arguments Raise {A} e.
Arguments OutOfFuel {A}.

Record File := { content : bytes; pos : nat; fault : option nat }.

Definition file_tell (f : File) : nat := pos f.

(** [file.seek(offset, whence)]: whence 0 is absolute, 1 relative to the
    cursor, 2 relative to the end. *)
Definition file_seek (offset whence : nat) (f : File) : File :=
  let target := match whence with
                | O => offset
                | 1%nat => (pos f + offset)%nat
                | _ => (List.length (content f) + offset)%nat
                end in
  {| content := content f; pos := target; fault := fault f |}.

(** [file.read(size)] of [io.BytesIO], for a [size] within the index range
    of the platform: up to [size] bytes from the cursor, all the remaining
    bytes when [size] is negative, nothing at or beyond the end; the cursor
    advances by what was read. A read that would return the unreadable byte
    raises, with the cursor left on that byte. A [size] outside the index
    range never reaches the stream (its conversion raises) and is outside
    this model, as are streams that refuse a negative [size] other than -1;
    statements about such sizes are limited to [in_index_range]. *)
Definition file_read (size : Z) (f : File) : File * Result bytes :=
  let rest := skipn (pos f) (content f) in
  let data := if size <? 0 then rest else firstn (Z.to_nat size) rest in
  let hit := match fault f with
             | Some b => if ((pos f <=? b) && (b <? pos f + List.length data))%nat
                         then Some b else None
             | None => None
             end in
  match hit with
  | Some b => ({| content := content f; pos := b; fault := fault f |}, Raise OSError)
  | None => ({| content := content f; pos := (pos f + List.length data)%nat;
                fault := fault f |}, Ok data)
  end.

(** ** The ordered name/value container *)

Definition lower_char (c : ascii) : ascii :=
  let n := nat_of_ascii c in
  if ((65 <=? n) && (n <=? 90))%nat then ascii_of_nat (n + 32) else c.

Fixpoint lower (s : string) : string :=
  match s with
  | EmptyString => EmptyString
  | String c s' => String (lower_char c) (lower s')
  end.

Definition CRLF : bytes := [x0d; x0a].

Section Builder.

(** The container's rendering of a name outside the override set; the
    container is not part of this module, and nothing below depends on
    which rendering it is. *)
Variable default_case : string -> string.

(** Modelled from the spec: the [normalize_name] function of
    [wpull.namevalue] is missing. Names are compared without regard to
    case, and a name that matches one of the overrides is rendered with
    the override's capitalization. *)
Definition normalize_name (overrides : list string) (name : string) : string :=
  match find (fun o => String.eqb (lower o) (lower name)) overrides with
  | Some o => o
  | None => default_case name
  end.

(** Modelled from the spec: the [NameValueRecord] class of
    [wpull.namevalue] is missing. A mapping from field name to field
    value that keeps insertion order; every write is a direct
    overwrite. [WARCRecord] writes by [fields[name] = value] alone, which
    leaves one value under a name; several values under one name, which
    the container can also hold, are not modelled. *)
Definition NameValueRecord := list (string * string).

Fixpoint assoc_get (key : string) (l : NameValueRecord) : option string :=
  match l with
  | [] => None
  | (k, v) :: l' => if String.eqb k key then Some v else assoc_get key l'
  end.

Fixpoint assoc_set (key value : string) (l : NameValueRecord) : NameValueRecord :=
  match l with
  | [] => [(key, value)]
  | (k, v) :: l' =>
      if String.eqb k key then (k, value) :: l'
      else (k, v) :: assoc_set key value l'
  end.

(** [fields[name]], [name in fields] and [fields[name] = value]. *)
Definition getitem (overrides : list string) (name : string)
    (l : NameValueRecord) : option string :=
  assoc_get (normalize_name overrides name) l.

Definition contains (overrides : list string) (name : string)
    (l : NameValueRecord) : bool :=
  match getitem overrides name l with Some _ => true | None => false end.

Definition setitem (overrides : list string) (name value : string)
    (l : NameValueRecord) : NameValueRecord :=
  assoc_set (normalize_name overrides name) value l.

(** Modelled from the spec: [bytes(fields)], the field lines in insertion
    order, each as [Name: Value] followed by CRLF. The container writes a
    field whose value is empty as the name and the colon alone. *)
Definition field_line (kv : string * string) : bytes :=
  match snd kv with
  | EmptyString => encode (fst kv ++ ":") ++ CRLF
  | _ => encode (fst kv ++ ": " ++ snd kv) ++ CRLF
  end.

Definition to_bytes (l : NameValueRecord) : bytes :=
  List.concat (map field_line l).

(** ** The interpreter state and its effects

    A method runs on a frame: the record [self] and, for a generator, the
    chunks it has yielded so far. A raised exception keeps the frame: what
    the method did to the record and to the block before it raised stays
    done. *)

Record WARCRecord := { fields : NameValueRecord; block_file : option File }.

Record Frame := { self : WARCRecord; yielded : list bytes }.

Definition Py (A : Type) := Frame -> Frame * Result A.

Definition ret {A} (a : A) : Py A := fun s => (s, Ok a).

Definition bind {A B} (m : Py A) (k : A -> Py B) : Py B :=
  fun s => match m s with
           | (s', Ok a) => k a s'
           | (s', Raise e) => (s', Raise e)
           | (s', OutOfFuel) => (s', OutOfFuel)
           end.

Definition raise {A} (e : Exn) : Py A := fun s => (s, Raise e).
Definition out_of_fuel {A} : Py A := fun s => (s, OutOfFuel).

Declare Scope py_scope.
Delimit Scope py_scope with py.
Notation "x <- c ;; k" := (bind c (fun x => k))
  (at level 61, c at next level, right associativity) : py_scope.
Notation "' pat <- c ;; k" := (bind c (fun x => match x with pat => k end))
  (at level 61, pat pattern, c at next level, right associativity) : py_scope.
Notation "c ;; k" := (bind c (fun _ => k))
  (at level 61, right associativity) : py_scope.
Local Open Scope py_scope.

Definition set_block (f : File) (s : Frame) : Frame :=
  {| self := {| fields := fields (self s); block_file := Some f |};
     yielded := yielded s |}.

(** Method calls on [self.block_file]; on [None] the attribute lookup
    raises. *)
Definition block_tell : Py nat :=
  fun s => match block_file (self s) with
           | Some f => (s, Ok (file_tell f))
           | None => (s, Raise AttributeError)
           end.

Definition block_seek (offset whence : nat) : Py unit :=
  fun s => match block_file (self s) with
           | Some f => (set_block (file_seek offset whence f) s, Ok tt)
           | None => (s, Raise AttributeError)
           end.

Definition block_read (size : Z) : Py bytes :=
  fun s => match block_file (self s) with
           | Some f => let (f', res) := file_read size f in (set_block f' s, res)
           | None => (s, Raise AttributeError)
           end.

(** The truth value of [self.block_file]: [None] is false, a stream object
    is true whatever it holds. *)
Definition block_truthy : Py bool :=
  fun s => (s, Ok (match block_file (self s) with Some _ => true | None => false end)).

Definition get_fields : Py NameValueRecord := fun s => (s, Ok (fields (self s))).

(** [yield chunk] *)
Definition yield_ (chunk : bytes) : Py unit :=
  fun s => ({| self := self s; yielded := yielded s ++ [chunk] |}, Ok tt).

(** A bound on the number of iterations of a read loop: every iteration but
    the last consumes at least one of the bytes after the cursor. *)
Definition loop_bound : Py nat :=
  fun s => (s, Ok (match block_file (self s) with
                   | Some f => S (List.length (content f) - pos f)
                   | None => 1%nat
                   end)).

(** Modelled from the spec: the [reset_file_offset] context manager of
    [wpull.util] is missing. It takes the stream's offset, runs the body of
    the [with] statement, and seeks back to the offset when the body has
    returned. On the path of an exception it follows the program rather than
    the spec: the restore is no finalizer, an exception raised in the body
    leaves the [with] statement past it, the cursor staying where the
    failing operation put it. *)
Definition reset_file_offset {A} (body : Py A) : Py A :=
  offset <- block_tell ;;
  a <- body ;;
  block_seek offset 0 ;;
  ret a.

(** ** class WARCRecord *)

Definition VERSION : string := "WARC/1.0".

Definition NAME_OVERRIDES : list string :=
  [ "WARC-Date"; "WARC-Type"; "WARC-Record-ID"; "WARC-Concurrent-To";
    "WARC-Refers-To"; "Content-Length"; "Content-Type"; "WARC-Target-URI";
    "WARC-Block-Digest"; "WARC-IP-Address"; "WARC-Filename";
    "WARC-Warcinfo-ID"; "WARC-Payload-Digest" ]%string.

(** ['sha1:{0}'.format(base64.b32encode(h).decode())] *)
Definition sha1_label (h : bytes) : string :=
  ("sha1:" ++ decode (Base32.b32encode h))%string.

(** [__init__]: an empty field container with the overrides, no block. *)
Definition init : WARCRecord := {| fields := []; block_file := None |}.

(** [self.fields[name]] and [self.fields[name] = value] *)
Definition field (name : string) (r : WARCRecord) : option string :=
  getitem NAME_OVERRIDES name (fields r).

Definition set_field (name value : string) : Py unit :=
  fun s => ({| self := {| fields := setitem NAME_OVERRIDES name value
                                      (fields (self s));
                          block_file := block_file (self s) |};
               yielded := yielded s |}, Ok tt).

Definition set_content_length : Py unit :=
  truthy <- block_truthy ;;
  if negb truthy then
    set_field "Content-Length" "0"
  else
    reset_file_offset (
      block_seek 0 2 ;;
      n <- block_tell ;;
      set_field "Content-Length" (str_of_int (Z.of_nat n))).

(** The [while True] loop of [compute_checksum]. *)
Fixpoint checksum_loop (fuel : nat) (block_hasher payload_hasher : Hasher)
    : Py (Hasher * Hasher) :=
  match fuel with
  | O => out_of_fuel
  | S fuel' =>
      data <- block_read 4096 ;;
      match data with
      | [] => ret (block_hasher, payload_hasher)
      | _ => checksum_loop fuel' (update block_hasher data)
               (update payload_hasher data)
      end
  end.

Definition compute_checksum (payload_offset : option Z) : Py unit :=
  truthy <- block_truthy ;;
  if negb truthy then
    set_field "Content-Length" "0"
  else
    let block_hasher := sha1_new in
    let payload_hasher := sha1_new in
    '(block_hasher, payload_hasher, content_length) <-
      reset_file_offset (
        block_hasher <-
          match payload_offset with
          | Some k => data <- block_read k ;; ret (update block_hasher data)
          | None => ret block_hasher
          end ;;
        fuel <- loop_bound ;;
        '(block_hasher, payload_hasher) <-
          checksum_loop fuel block_hasher payload_hasher ;;
        content_length <- block_tell ;;
        ret (block_hasher, payload_hasher, content_length)) ;;
    let content_hash := digest block_hasher in
    set_field "WARC-Block-Digest" (sha1_label content_hash) ;;
    match payload_offset with
    | Some _ =>
        let payload_hash := digest payload_hasher in
        set_field "WARC-Payload-Digest" (sha1_label payload_hash)
    | None => ret tt
    end ;;
    set_field "Content-Length" (str_of_int (Z.of_nat content_length)).

(** The [while True] loop of [__iter__]. *)
Fixpoint iter_loop (fuel : nat) : Py unit :=
  match fuel with
  | O => out_of_fuel
  | S fuel' =>
      data <- block_read 4096 ;;
      match data with
      | [] => ret tt
      | _ => yield_ data ;; iter_loop fuel'
      end
  end.

Definition iter : Py unit :=
  yield_ (encode VERSION) ;;
  yield_ CRLF ;;
  fs <- get_fields ;;
  yield_ (to_bytes fs) ;;
  yield_ CRLF ;;
  reset_file_offset (fuel <- loop_bound ;; iter_loop fuel) ;;
  yield_ (CRLF ++ CRLF).

(** Calling a method on a record, and driving the generator to its end. *)
Definition call {A} (m : Py A) (r : WARCRecord) : WARCRecord * Result A :=
  let (s, res) := m {| self := r; yielded := [] |} in (self s, res).

Definition iterate (r : WARCRecord) : WARCRecord * list bytes * Result unit :=
  let (s, res) := iter {| self := r; yielded := [] |} in
  (self s, yielded s, res).

(** The other class constants. *)
Definition WARC_TYPE : string := "WARC-Type".
Definition CONTENT_TYPE : string := "Content-Type".
Definition WARC_DATE : string := "WARC-Date".
Definition WARC_RECORD_ID : string := "WARC-Record-ID".
Definition WARCINFO : string := "warcinfo".
Definition WARC_FIELDS : string := "application/warc-fields".
Definition REQUEST : string := "request".
Definition RESPONSE : string := "response".
Definition TYPE_REQUEST : string := "application/http;msgtype=request".
Definition TYPE_RESPONSE : string := "application/http;msgtype=response".

(** [set_common_fields]. The clock and the random source are outside the
    program: [now] is what [wpull.util.datetime_str()] returns at the call
    and [urn] what [uuid.uuid4().urn] returns. *)
Definition set_common_fields (warc_type content_type now urn : string)
    : Py unit :=
  set_field WARC_TYPE warc_type ;;
  set_field CONTENT_TYPE content_type ;;
  set_field WARC_DATE now ;;
  set_field WARC_RECORD_ID ("<" ++ urn ++ ">")%string.

(** ** Vocabulary of the statements *)

Definition frame (fs : NameValueRecord) (bf : option File) (ys : list bytes)
    : Frame :=
  {| self := {| fields := fs; block_file := bf |}; yielded := ys |}.

(** The bytes from the cursor to the end of the stream. *)
Definition unread (f : File) : bytes := skipn (pos f) (content f).

Definition at_pos (p : nat) (f : File) : File :=
  {| content := content f; pos := p; fault := fault f |}.

(** Computations that only move the cursor.

    A computation is [block_only] when, on a frame with a block attached, it
    leaves the fields alone, leaves the contents of the block alone, and
    neither its result nor what it yields depends on the fields. *)

Definition block_only {A} (m : Py A) : Prop :=
  forall f ys, exists p ys' res,
    forall fs, m (frame fs (Some f) ys) = (frame fs (Some (at_pos p f)) ys', res).

(** A computation [returns_on] a frame when it comes to an end there, with a
    value or an exception. *)
Definition returns_on {A} (m : Py A) (s : Frame) : Prop := snd (m s) <> OutOfFuel.

(** The body of the [with] block of [compute_checksum]. *)
Definition checksum_pass (payload_offset : option Z) : Py (Hasher * Hasher * nat) :=
  block_hasher <-
    match payload_offset with
    | Some k => data <- block_read k ;; ret (update sha1_new data)
    | None => ret sha1_new
    end ;;
  fuel <- loop_bound ;;
  '(block_hasher, payload_hasher) <- checksum_loop fuel block_hasher sha1_new ;;
  content_length <- block_tell ;;
  ret (block_hasher, payload_hasher, content_length).

(** The field assignments that end [compute_checksum]. *)
Definition store_digests (payload_offset : option Z)
    (out : Hasher * Hasher * nat) (fs : NameValueRecord) : NameValueRecord :=
  let '(block_hasher, payload_hasher, content_length) := out in
  let fs1 := setitem NAME_OVERRIDES "WARC-Block-Digest" (sha1_label (digest block_hasher)) fs in
  let fs2 := match payload_offset with
             | Some _ => setitem NAME_OVERRIDES "WARC-Payload-Digest"
                           (sha1_label (digest payload_hasher)) fs1
             | None => fs1
             end in
  setitem NAME_OVERRIDES "Content-Length" (str_of_int (Z.of_nat content_length)) fs2.

(** A block is [readable] when reading from its cursor to the end meets no
    unreadable byte. *)
Definition readable (f : File) : Prop :=
  match fault f with
  | None => True
  | Some b => (b < pos f)%nat \/ (List.length (content f) <= b)%nat
  end.

(** The bytes that follow the first [k] unread bytes; a negative [k] makes
    the first read take everything. *)
Definition payload_part (k : Z) (f : File) : bytes :=
  if k <? 0 then [] else skipn (Z.to_nat k) (unread f).

(** The cursor after reading to the end. *)
Definition end_pos (f : File) : nat := Nat.max (pos f) (List.length (content f)).

(** What the pass over a readable block hands back: the two hash objects
    and the content length. *)
Definition pass_result (k : option Z) (f : File) : Hasher * Hasher * nat :=
  ({| fed := unread f |},
   {| fed := match k with Some k' => payload_part k' f | None => unread f end |},
   end_pos f).

(** The chunks that [__iter__] yields before it turns to the block. *)
Definition head_chunks (fs : NameValueRecord) : list bytes :=
  [encode VERSION; CRLF; to_bytes fs; CRLF].

(** A run of assignments [fields[name] = value], first to last. *)
Definition assign_all (l : list (string * string)) (fs : NameValueRecord)
    : NameValueRecord :=
  fold_left (fun fs nv => setitem NAME_OVERRIDES (fst nv) (snd nv) fs) l fs.

(** The stored names in order of first insertion, after the names [seen]
    already. *)
Definition note_name (seen : list string) (key : string) : list string :=
  if existsb (fun k => String.eqb k key) seen then seen else seen ++ [key].

Definition insertion_order (seen names : list string) : list string :=
  fold_left note_name (map (normalize_name NAME_OVERRIDES) names) seen.

(** The digest label of the empty byte string. *)
Definition EMPTY_DIGEST : string := "sha1:3I42H3S6NNFQ2MSVX7XZKYAYSCX5QBYJ".

(** The names that [set_common_fields] and [compute_checksum] assign, as
    they are stored. *)
Definition COMMON_NAMES : list string :=
  [WARC_TYPE; CONTENT_TYPE; WARC_DATE; WARC_RECORD_ID].

Definition CHECKSUM_NAMES : list string :=
  ["WARC-Block-Digest"; "WARC-Payload-Digest"; "Content-Length"]%string.

(** The field names of a record, in the order of the field block. *)
Definition names_of (fs : NameValueRecord) : list string := map fst fs.

(** The sizes that [read] takes: the index range of a 64-bit platform. *)
Definition in_index_range (k : Z) : Prop := - 2 ^ 63 <= k < 2 ^ 63.

(** The integer that a decimal string denotes. *)
Definition parse_int (s : string) : option Z :=
  option_map Z.of_int (NilZero.int_of_string s).

(** * Properties *)

(** ** The primitives on known inputs *)

Example sha1_empty :
  map Z_of_byte (SHA1.sha1 []) =
  [218; 57; 163; 238; 94; 107; 75; 13; 50; 85; 191; 239; 149; 96; 24; 144;
   175; 216; 7; 9].
Proof. vm_compute. reflexivity. Qed.

Example sha1_abc :
  map Z_of_byte (SHA1.sha1 (encode "abc")) =
  [169; 153; 62; 54; 71; 6; 129; 106; 186; 62; 37; 113; 120; 80; 194; 108;
   156; 208; 216; 157].
Proof. vm_compute. reflexivity. Qed.

Example sha1_two_blocks :
  map Z_of_byte
    (SHA1.sha1 (encode "abcdbcdecdefdefgefghfghighijhijkijkljklmklmnlmnomnopnopq")) =
  [132; 152; 62; 68; 28; 59; 210; 110; 186; 174; 74; 161; 249; 81; 41; 229;
   229; 70; 112; 241].
Proof. vm_compute. reflexivity. Qed.

Example b32encode_rfc4648 :
  map (fun s => decode (Base32.b32encode (encode s)))
    [""; "f"; "fo"; "foo"; "foob"; "fooba"; "foobar"]%string =
  [""; "MY======"; "MZXQ===="; "MZXW6==="; "MZXW6YQ="; "MZXW6YTB";
   "MZXW6YTBOI======"]%string.
Proof. vm_compute. reflexivity. Qed.

Lemma sha1_length (msg : bytes) : List.length (SHA1.sha1 msg) = 20%nat.
Proof. reflexivity. Qed.

Lemma frame_eta (s : Frame) :
  s = frame (fields (self s)) (block_file (self s)) (yielded s).
Proof. destruct s as [[fs bf] ys]. reflexivity. Qed.

Lemma at_pos_same (f : File) : at_pos (pos f) f = f.
Proof. destruct f. reflexivity. Qed.

Lemma file_read_same (size : Z) (f : File) :
  exists p, fst (file_read size f) = at_pos p f.
Proof.
  unfold file_read.
  destruct (match fault f with
            | Some b => _
            | None => None
            end) as [b|]; eexists; reflexivity.
Qed.

Lemma file_read_ok (size : Z) (f : File) :
  readable f ->
  let data := if size <? 0 then unread f else firstn (Z.to_nat size) (unread f) in
  file_read size f = (at_pos (pos f + List.length data) f, Ok data).
Proof.
  intros Hf data. subst data. destruct f as [c p [b|]]; [|reflexivity].
  unfold readable, file_read, at_pos, unread in *.
  cbn [content pos fault] in *.
  match goal with
  | |- context [if ?c then Some b else None] => destruct c eqn:Ehit
  end; [|reflexivity].
  apply andb_true_iff in Ehit. destruct Ehit as [H1 H2].
  apply Nat.leb_le in H1. apply Nat.ltb_lt in H2. exfalso.
  match type of H2 with
  | (_ < _ + ?n)%nat => assert (Hdata : (n <= List.length c - p)%nat)
  end.
  { destruct (size <? 0); [|rewrite length_firstn]; rewrite length_skipn; lia. }
  lia.
Qed.

Lemma readable_at_pos (f : File) (n : nat) :
  readable f -> readable (at_pos (pos f + n) f).
Proof.
  unfold readable, at_pos. cbn. destruct (fault f); [|trivial]. lia.
Qed.

Lemma readable_no_fault (f : File) : fault f = None -> readable f.
Proof. unfold readable. intros ->. exact I. Qed.

Lemma readable_empty (f : File) : content f = [] -> readable f.
Proof.
  unfold readable. intros ->. destruct (fault f); [|trivial]. cbn. lia.
Qed.

Lemma block_only_ret {A} (a : A) : block_only (ret a).
Proof.
  intros f ys. exists (pos f), ys, (Ok a). intros fs.
  rewrite at_pos_same. reflexivity.
Qed.

Lemma block_only_out_of_fuel {A} : block_only (@out_of_fuel A).
Proof.
  intros f ys. exists (pos f), ys, OutOfFuel. intros fs.
  rewrite at_pos_same. reflexivity.
Qed.

Lemma block_only_bind {A B} (m : Py A) (k : A -> Py B) :
  block_only m -> (forall a, block_only (k a)) -> block_only (bind m k).
Proof.
  intros Hm Hk f ys.
  destruct (Hm f ys) as (p & ys1 & res & Em).
  destruct res as [a| e |].
  - destruct (Hk a (at_pos p f) ys1) as (p' & ys2 & res' & Ek).
    exists p', ys2, res'. intros fs. unfold bind. rewrite Em.
    rewrite Ek. reflexivity.
  - exists p, ys1, (Raise e). intros fs. unfold bind. rewrite Em. reflexivity.
  - exists p, ys1, OutOfFuel. intros fs. unfold bind. rewrite Em. reflexivity.
Qed.

Lemma block_only_tell : block_only block_tell.
Proof.
  intros f ys. exists (pos f), ys, (Ok (pos f)). intros fs.
  rewrite at_pos_same. reflexivity.
Qed.

Lemma block_only_seek (offset whence : nat) : block_only (block_seek offset whence).
Proof.
  intros f ys. eexists _, ys, (Ok tt). intros fs. reflexivity.
Qed.

Lemma block_only_read (size : Z) : block_only (block_read size).
Proof.
  intros f ys. destruct (file_read_same size f) as [p Hp].
  exists p, ys, (snd (file_read size f)). intros fs.
  unfold block_read. cbn. destruct (file_read size f) as [f' res].
  cbn in Hp. subst f'. reflexivity.
Qed.

Lemma block_only_yield (chunk : bytes) : block_only (yield_ chunk).
Proof.
  intros f ys. exists (pos f), (ys ++ [chunk]), (Ok tt). intros fs.
  rewrite at_pos_same. reflexivity.
Qed.

Lemma block_only_loop_bound : block_only loop_bound.
Proof.
  intros f ys.
  exists (pos f), ys, (Ok (S (List.length (content f) - pos f))). intros fs.
  rewrite at_pos_same. reflexivity.
Qed.

Create HintDb block_only.
#[local] Hint Resolve block_only_ret block_only_out_of_fuel block_only_bind
  block_only_tell block_only_seek block_only_read block_only_yield
  block_only_loop_bound : block_only.

(** The [with] statement: the cursor is put back when the body returns, and
    stays where the body left it when the body raises. *)
Lemma reset_file_offset_ok {A} (body : Py A) fs f ys p ys' (a : A) :
  body (frame fs (Some f) ys) = (frame fs (Some (at_pos p f)) ys', Ok a) ->
  reset_file_offset body (frame fs (Some f) ys) = (frame fs (Some f) ys', Ok a).
Proof.
  intros E. unfold reset_file_offset, bind, block_tell.
  cbn [frame self block_file]. fold (frame fs (Some f) ys). rewrite E.
  cbn. unfold file_seek, file_tell. cbn.
  fold (at_pos (pos f) f). rewrite at_pos_same. reflexivity.
Qed.

Lemma reset_file_offset_raise {A} (body : Py A) fs f ys p ys' e :
  body (frame fs (Some f) ys) = (frame fs (Some (at_pos p f)) ys', Raise e) ->
  reset_file_offset body (frame fs (Some f) ys)
  = (frame fs (Some (at_pos p f)) ys', @Raise A e).
Proof.
  intros E. unfold reset_file_offset, bind, block_tell.
  cbn [frame self block_file]. fold (frame fs (Some f) ys). rewrite E.
  reflexivity.
Qed.

Lemma reset_file_offset_restores {A} (body : Py A) (f : File) (ys : list bytes) :
  block_only body ->
  (forall fs, returns_on body (frame fs (Some f) ys)) ->
  exists ys' (res : Exn * nat + A),
    forall fs, reset_file_offset body (frame fs (Some f) ys)
               = match res with
                 | inr a => (frame fs (Some f) ys', Ok a)
                 | inl (e, p) => (frame fs (Some (at_pos p f)) ys', Raise e)
                 end.
Proof.
  intros Hb Ht.
  destruct (Hb f ys) as (p & ys1 & res & Eb).
  destruct res as [a| e |].
  - exists ys1, (inr a). intros fs. apply (reset_file_offset_ok _ _ _ _ p), Eb.
  - exists ys1, (inl (e, p)). intros fs. apply reset_file_offset_raise, Eb.
  - specialize (Ht []). unfold returns_on in Ht. rewrite Eb in Ht.
    contradiction.
Qed.

Lemma file_read_cases (size : Z) (f : File) :
  (exists b, file_read size f = (at_pos b f, Raise OSError)) \/
  (exists data,
      (List.length data <= List.length (content f) - pos f)%nat /\
      file_read size f = (at_pos (pos f + List.length data) f, Ok data)).
Proof.
  unfold file_read.
  destruct (match fault f with
            | Some b => _
            | None => None
            end) as [b|]; [left|right]; eexists; [reflexivity|].
  split; [|reflexivity].
  destruct (size <? 0).
  - rewrite length_skipn. lia.
  - rewrite length_firstn, length_skipn. lia.
Qed.

(** ** Field assignments *)

Lemma assoc_get_set_same (k v : string) (l : NameValueRecord) :
  assoc_get k (assoc_set k v l) = Some v.
Proof.
  induction l as [|[k' v'] l IH]; cbn.
  - rewrite String.eqb_refl. reflexivity.
  - destruct (String.eqb k' k) eqn:E; cbn; rewrite E; auto.
Qed.

Lemma assoc_get_set_other (k k' v : string) (l : NameValueRecord) :
  k <> k' -> assoc_get k' (assoc_set k v l) = assoc_get k' l.
Proof.
  intros Hne. induction l as [|[k0 v0] l IH]; cbn.
  - destruct (String.eqb k k') eqn:E; [|reflexivity].
    apply String.eqb_eq in E. contradiction.
  - destruct (String.eqb k0 k) eqn:E; cbn.
    + apply String.eqb_eq in E. subst k0.
      destruct (String.eqb k k') eqn:E'; [|reflexivity].
      apply String.eqb_eq in E'. contradiction.
    + destruct (String.eqb k0 k'); auto.
Qed.

Lemma assoc_set_known (k v : string) (l : NameValueRecord) :
  assoc_get k l = Some v -> assoc_set k v l = l.
Proof.
  induction l as [|[k' v'] l IH]; cbn; [discriminate|].
  destruct (String.eqb k' k) eqn:E.
  - intros [= ->]. reflexivity.
  - intros H. rewrite IH; auto.
Qed.

(** The three names written by the record are overrides, so they are
    stored under their own spelling. *)
Lemma normalize_content_length :
  normalize_name NAME_OVERRIDES "Content-Length" = "Content-Length"%string.
Proof. reflexivity. Qed.

Lemma normalize_block_digest :
  normalize_name NAME_OVERRIDES "WARC-Block-Digest"
  = "WARC-Block-Digest"%string.
Proof. reflexivity. Qed.

Lemma normalize_payload_digest :
  normalize_name NAME_OVERRIDES "WARC-Payload-Digest"
  = "WARC-Payload-Digest"%string.
Proof. reflexivity. Qed.

Lemma normalize_lowercase :
  normalize_name NAME_OVERRIDES "content-length" = "Content-Length"%string.
Proof. reflexivity. Qed.

Lemma compute_checksum_attached (k : option Z) fs f ys :
  compute_checksum k (frame fs (Some f) ys) =
  match reset_file_offset (checksum_pass k) (frame fs (Some f) ys) with
  | (s, Ok out) =>
      (frame (store_digests k out (fields (self s))) (block_file (self s))
         (yielded s), Ok tt)
  | (s, Raise e) => (s, Raise e)
  | (s, OutOfFuel) => (s, OutOfFuel)
  end.
Proof.
  unfold compute_checksum, bind at 1. cbn [block_truthy frame self block_file negb].
  unfold bind at 1. fold (checksum_pass k).
  destruct (reset_file_offset (checksum_pass k) (frame fs (Some f) ys))
    as [s [[[bh ph] cl]| e |]]; try reflexivity.
  destruct k; reflexivity.
Qed.

Lemma block_only_checksum_loop fuel bh ph :
  block_only (checksum_loop fuel bh ph).
Proof.
  revert bh ph. induction fuel as [|n IH]; intros bh ph; cbn.
  - auto with block_only.
  - apply block_only_bind; [auto with block_only|].
    intros [|b data]; auto with block_only.
Qed.

Lemma block_only_iter_loop fuel : block_only (iter_loop fuel).
Proof.
  induction fuel as [|n IH]; cbn.
  - auto with block_only.
  - apply block_only_bind; [auto with block_only|].
    intros [|b data]; auto with block_only.
Qed.

Lemma block_only_checksum_pass k : block_only (checksum_pass k).
Proof.
  unfold checksum_pass.
  apply block_only_bind.
  - destruct k; auto with block_only.
  - intros bh. apply block_only_bind; [auto with block_only|].
    intros fuel. apply block_only_bind; [apply block_only_checksum_loop|].
    intros [bh' ph']. auto with block_only.
Qed.

Lemma block_only_iter_body :
  block_only (fuel <- loop_bound ;; iter_loop fuel).
Proof.
  apply block_only_bind; [auto with block_only|].
  intros fuel. apply block_only_iter_loop.
Qed.

Lemma checksum_loop_returns fuel bh ph fs f ys :
  (List.length (content f) - pos f < fuel)%nat ->
  returns_on (checksum_loop fuel bh ph) (frame fs (Some f) ys).
Proof.
  unfold returns_on.
  revert bh ph f. induction fuel as [|n IH]; intros bh ph f Hfuel; [lia|].
  cbn [checksum_loop]. unfold bind at 1, block_read. cbn [frame self block_file].
  destruct (file_read_cases 4096 f) as [[b E]|[data [Hlen E]]]; rewrite E.
  - cbn. discriminate.
  - destruct data as [|b data]; [cbn; discriminate|].
    apply (IH _ _ (at_pos _ f)). cbn in *. lia.
Qed.

Lemma iter_loop_returns fuel fs f ys :
  (List.length (content f) - pos f < fuel)%nat ->
  returns_on (iter_loop fuel) (frame fs (Some f) ys).
Proof.
  unfold returns_on.
  revert f ys. induction fuel as [|n IH]; intros f ys Hfuel; [lia|].
  cbn [iter_loop]. unfold bind at 1, block_read. cbn [frame self block_file].
  destruct (file_read_cases 4096 f) as [[b E]|[data [Hlen E]]]; rewrite E.
  - cbn. discriminate.
  - destruct data as [|b data]; [cbn; discriminate|].
    unfold bind, yield_. cbn [set_block self yielded fields block_file frame].
    apply (IH (at_pos _ f)). cbn in *. lia.
Qed.

Lemma checksum_pass_returns k fs f ys :
  returns_on (checksum_pass k) (frame fs (Some f) ys).
Proof.
  unfold returns_on, checksum_pass.
  assert (Hloop : forall bh f',
    snd ((fuel <- loop_bound ;;
          '(block_hasher, payload_hasher) <- checksum_loop fuel bh sha1_new ;;
          content_length <- block_tell ;;
          ret (block_hasher, payload_hasher, content_length))
           (frame fs (Some f') ys)) <> OutOfFuel).
  { intros bh f'. unfold bind at 1, loop_bound. cbn [frame self block_file].
    unfold bind at 1.
    pose proof (checksum_loop_returns
                  (S (List.length (content f') - pos f')) bh sha1_new fs f' ys
                  ltac:(lia)) as Hl.
    unfold returns_on in Hl.
    destruct (block_only_checksum_loop
                (S (List.length (content f') - pos f')) bh sha1_new f' ys)
      as (p & ys1 & res & E).
    fold (frame fs (Some f') ys).
    rewrite E in *. destruct res as [[bh' ph']| e |]; cbn; try discriminate.
    contradiction. }
  destruct k as [k|].
  - unfold bind at 1. unfold bind at 1. unfold block_read.
    cbn [frame self block_file].
    destruct (file_read_cases k f) as [[b E]|[data [Hlen E]]]; rewrite E.
    + cbn. discriminate.
    + apply Hloop.
  - unfold bind at 1. cbn [ret]. apply Hloop.
Qed.

Lemma iter_body_returns fs f ys :
  returns_on (fuel <- loop_bound ;; iter_loop fuel) (frame fs (Some f) ys).
Proof.
  unfold returns_on, bind, loop_bound. cbn [frame self block_file].
  apply iter_loop_returns. lia.
Qed.

(** What a call of [compute_checksum] on a record with a block comes to:
    the outcome of the pass over the block depends on the block alone; when
    the pass returns the block is handed back as it was and the fields are
    assigned; when it raises no field is assigned and the block keeps its
    contents. *)
Lemma compute_checksum_shape (k : option Z) (f : File) :
  exists res : Exn * nat + Hasher * Hasher * nat,
    forall fs,
      call (compute_checksum k) {| fields := fs; block_file := Some f |} =
      match res with
      | inr out => ({| fields := store_digests k out fs; block_file := Some f |}, Ok tt)
      | inl (e, p) => ({| fields := fs; block_file := Some (at_pos p f) |}, Raise e)
      end.
Proof.
  destruct (reset_file_offset_restores _ f [] (block_only_checksum_pass k)
              (fun fs => checksum_pass_returns k fs f []))
    as (ys' & res & E).
  destruct res as [[e p]|out]; [exists (inl (e, p))|exists (inr out)];
    intros fs; unfold call;
    change {| self := {| fields := fs; block_file := Some f |}; yielded := [] |}
      with (frame fs (Some f) []);
    rewrite compute_checksum_attached, E; reflexivity.
Qed.

Lemma firstn_then_rest {A} (n : nat) (l : list A) :
  firstn n l ++ skipn (List.length (firstn n l)) l = l.
Proof.
  rewrite length_firstn.
  destruct (Nat.le_ge_cases n (List.length l)) as [H|H].
  - rewrite Nat.min_l by exact H. apply firstn_skipn.
  - rewrite Nat.min_r by exact H.
    rewrite firstn_all2, skipn_all by lia. apply app_nil_r.
Qed.

Lemma skipn_firstn_length {A} (n : nat) (l : list A) :
  skipn (List.length (firstn n l)) l = skipn n l.
Proof.
  rewrite length_firstn.
  destruct (Nat.le_ge_cases n (List.length l)) as [H|H].
  - rewrite Nat.min_l by exact H. reflexivity.
  - rewrite Nat.min_r by exact H.
    rewrite skipn_all. symmetry. apply skipn_all2. exact H.
Qed.

Lemma unread_at_pos (f : File) (n : nat) :
  unread (at_pos (pos f + n) f) = skipn n (unread f).
Proof.
  unfold unread. cbn. rewrite skipn_skipn. f_equal. lia.
Qed.

Lemma unread_length (f : File) :
  List.length (unread f) = (List.length (content f) - pos f)%nat.
Proof. unfold unread. apply length_skipn. Qed.

Lemma update_nil (h : Hasher) : update h [] = h.
Proof. destruct h. unfold update. cbn. rewrite app_nil_r. reflexivity. Qed.

Lemma update_update (h : Hasher) (a b : bytes) :
  update (update h a) b = update h (a ++ b).
Proof. unfold update. cbn. rewrite app_assoc. reflexivity. Qed.

Lemma chunk_size_pos : (0 < Z.to_nat 4096)%nat.
Proof. lia. Qed.

Lemma firstn_nil_inv {A} (n : nat) (l : list A) :
  (0 < n)%nat -> firstn n l = [] -> l = [].
Proof.
  intros Hn H. destruct n; [lia|]. destruct l; [reflexivity|discriminate].
Qed.

Lemma checksum_loop_ok fuel bh ph fs f ys :
  readable f ->
  (List.length (content f) - pos f < fuel)%nat ->
  checksum_loop fuel bh ph (frame fs (Some f) ys) =
  (frame fs (Some (at_pos (end_pos f) f)) ys,
   Ok (update bh (unread f), update ph (unread f))).
Proof.
  revert bh ph f. induction fuel as [|n IH]; intros bh ph f Hf Hfuel; [lia|].
  cbn [checksum_loop]. unfold bind at 1, block_read. cbn [frame self block_file].
  rewrite (file_read_ok 4096 f Hf). cbv zeta.
  change (4096 <? 0) with false. cbv iota.
  pose proof chunk_size_pos as Hc.
  pose proof (unread_length f) as Hlen.
  pose proof (firstn_then_rest (Z.to_nat 4096) (unread f)) as Hsplit.
  pose proof (length_firstn (Z.to_nat 4096) (unread f)) as Hdata.
  destruct (firstn (Z.to_nat 4096) (unread f)) as [|b data] eqn:E.
  - apply firstn_nil_inv in E; [|exact Hc].
    rewrite E in *. rewrite !update_nil. cbn in Hlen.
    unfold ret, set_block, frame, at_pos, end_pos. cbn.
    replace (pos f + 0)%nat with (Nat.max (pos f) (List.length (content f)))
      by lia.
    reflexivity.
  - change (set_block ?f' (frame fs (Some f) ys)) with (frame fs (Some f') ys).
    rewrite IH.
    + rewrite unread_at_pos, !update_update, Hsplit.
      unfold at_pos, end_pos. cbn in *.
      replace (Nat.max (pos f + S (List.length data)) (List.length (content f)))
        with (Nat.max (pos f) (List.length (content f))) by lia.
      reflexivity.
    + apply readable_at_pos, Hf.
    + cbn in *. lia.
Qed.

Lemma iter_loop_ok fuel fs f ys :
  readable f ->
  (List.length (content f) - pos f < fuel)%nat ->
  exists chunks,
    List.concat chunks = unread f /\
    Forall (fun c => c <> [] /\ Z.of_nat (List.length c) <= 4096) chunks /\
    iter_loop fuel (frame fs (Some f) ys) =
    (frame fs (Some (at_pos (end_pos f) f)) (ys ++ chunks), Ok tt).
Proof.
  revert f ys. induction fuel as [|n IH]; intros f ys Hf Hfuel; [lia|].
  cbn [iter_loop]. unfold bind at 1, block_read. cbn [frame self block_file].
  rewrite (file_read_ok 4096 f Hf). cbv zeta.
  change (4096 <? 0) with false. cbv iota.
  pose proof chunk_size_pos as Hc.
  pose proof (unread_length f) as Hlen.
  pose proof (firstn_then_rest (Z.to_nat 4096) (unread f)) as Hsplit.
  pose proof (length_firstn (Z.to_nat 4096) (unread f)) as Hdata.
  destruct (firstn (Z.to_nat 4096) (unread f)) as [|b data] eqn:E.
  - apply firstn_nil_inv in E; [|exact Hc].
    exists []. rewrite E in *. cbn in Hlen. split; [reflexivity|].
    split; [constructor|].
    rewrite app_nil_r.
    unfold ret, set_block, frame, at_pos, end_pos. cbn.
    replace (pos f + 0)%nat with (Nat.max (pos f) (List.length (content f)))
      by lia.
    reflexivity.
  - change (set_block ?f' (frame fs (Some f) ys)) with (frame fs (Some f') ys).
    unfold bind at 1, yield_.
    change {| self := self (frame fs ?bf ys); yielded := ?ys' |}
      with (frame fs bf ys').
    destruct (IH (at_pos (pos f + List.length (b :: data)) f)
                (ys ++ [b :: data])) as (chunks & Hcat & Hall & Hrun).
    + apply readable_at_pos, Hf.
    + cbn in *. lia.
    + exists ((b :: data) :: chunks). split; [|split].
      * cbn [List.concat]. rewrite Hcat, unread_at_pos. exact Hsplit.
      * constructor; [|exact Hall]. split; [discriminate|].
        rewrite Hdata. lia.
      * change (yielded (frame fs ?bf ys)) with ys.
        refine (eq_trans Hrun _). rewrite <- app_assoc.
        unfold at_pos, end_pos. cbn in *.
        replace (Nat.max (pos f + S (List.length data)) (List.length (content f)))
          with (Nat.max (pos f) (List.length (content f))) by lia.
        reflexivity.
Qed.

Lemma end_pos_at_pos (f : File) (n : nat) :
  (n <= List.length (content f) - pos f)%nat ->
  end_pos (at_pos (pos f + n) f) = end_pos f.
Proof. unfold end_pos, at_pos. cbn. lia. Qed.

Lemma at_pos_at_pos (p q : nat) (f : File) : at_pos p (at_pos q f) = at_pos p f.
Proof. reflexivity. Qed.

Lemma loop_then_tell_ok bh fs f ys :
  readable f ->
  (fuel <- loop_bound ;;
   '(block_hasher, payload_hasher) <- checksum_loop fuel bh sha1_new ;;
   content_length <- block_tell ;;
   ret (block_hasher, payload_hasher, content_length)) (frame fs (Some f) ys) =
  (frame fs (Some (at_pos (end_pos f) f)) ys,
   Ok (update bh (unread f), {| fed := unread f |}, end_pos f)).
Proof.
  intros Hf. unfold bind at 1, loop_bound. cbn [frame self block_file].
  unfold bind at 1.
  change {| self := {| fields := fs; block_file := Some f |}; yielded := ys |}
    with (frame fs (Some f) ys).
  rewrite checksum_loop_ok by (auto; lia).
  reflexivity.
Qed.

Lemma checksum_pass_ok k fs f ys :
  readable f ->
  checksum_pass k (frame fs (Some f) ys) =
  (frame fs (Some (at_pos (end_pos f) f)) ys, Ok (pass_result k f)).
Proof.
  intros Hf. unfold checksum_pass, pass_result.
  destruct k as [k|].
  - unfold bind at 1. unfold bind at 1. unfold block_read.
    cbn [frame self block_file].
    rewrite (file_read_ok k f Hf). cbv zeta.
    set (data := if k <? 0 then unread f else firstn (Z.to_nat k) (unread f)).
    assert (Hdata : (List.length data <= List.length (content f) - pos f)%nat).
    { subst data. rewrite <- unread_length.
      destruct (k <? 0); [lia|]. rewrite length_firstn. lia. }
    assert (Hsplit : data ++ skipn (List.length data) (unread f) = unread f).
    { subst data. destruct (k <? 0).
      - rewrite skipn_all. apply app_nil_r.
      - apply firstn_then_rest. }
    assert (Hrest : skipn (List.length data) (unread f) = payload_part k f).
    { subst data. unfold payload_part. destruct (k <? 0).
      - apply skipn_all.
      - apply skipn_firstn_length. }
    refine (eq_trans
              (loop_then_tell_ok (update sha1_new data) fs
                 (at_pos (pos f + List.length data) f) ys
                 (readable_at_pos f _ Hf)) _).
    rewrite at_pos_at_pos, unread_at_pos, end_pos_at_pos by exact Hdata.
    unfold update, sha1_new. cbn [fed].
    change ([] ++ data) with data.
    rewrite Hsplit, Hrest. reflexivity.
  - unfold bind at 1. cbn [ret].
    refine (eq_trans (loop_then_tell_ok sha1_new fs f ys Hf) _).
    reflexivity.
Qed.

(** The outcome of [compute_checksum] on a record whose block reads without
    error. *)
Lemma compute_checksum_ok (k : option Z) fs f :
  readable f ->
  call (compute_checksum k) {| fields := fs; block_file := Some f |} =
  ({| fields := store_digests k (pass_result k f) fs; block_file := Some f |},
   Ok tt).
Proof.
  intros Hf. unfold call.
  change {| self := {| fields := fs; block_file := Some f |}; yielded := [] |}
    with (frame fs (Some f) []).
  rewrite compute_checksum_attached.
  rewrite (reset_file_offset_ok _ fs f [] (end_pos f) [] (pass_result k f))
    by (apply checksum_pass_ok, Hf).
  reflexivity.
Qed.

(** The outcome of [compute_checksum] and of [set_content_length] on a
    record without a block. *)
Lemma compute_checksum_no_block (k : option Z) fs :
  call (compute_checksum k) {| fields := fs; block_file := None |} =
  ({| fields := setitem NAME_OVERRIDES "Content-Length" "0" fs;
      block_file := None |}, Ok tt).
Proof. reflexivity. Qed.

Lemma set_content_length_no_block fs :
  call set_content_length {| fields := fs; block_file := None |} =
  ({| fields := setitem NAME_OVERRIDES "Content-Length" "0" fs;
      block_file := None |}, Ok tt).
Proof. reflexivity. Qed.

(** The outcome of [set_content_length] on a record with a block. *)
Lemma set_content_length_attached fs f :
  call set_content_length {| fields := fs; block_file := Some f |} =
  ({| fields := setitem NAME_OVERRIDES "Content-Length"
                  (str_of_int (Z.of_nat (List.length (content f)))) fs;
      block_file := Some f |}, Ok tt).
Proof.
  unfold call, set_content_length, reset_file_offset, bind, block_truthy,
    block_tell, block_seek, ret, set_field, set_block, file_seek,
    file_tell.
  cbn. rewrite Nat.add_0_r. fold (at_pos (pos f) f). rewrite at_pos_same.
  reflexivity.
Qed.

(** What the assignments leave in the fields. *)
Lemma getitem_setitem_same name v fs :
  getitem NAME_OVERRIDES name (setitem NAME_OVERRIDES name v fs) = Some v.
Proof. apply assoc_get_set_same. Qed.

Lemma getitem_setitem_other name name' v fs :
  normalize_name NAME_OVERRIDES name <> normalize_name NAME_OVERRIDES name' ->
  getitem NAME_OVERRIDES name' (setitem NAME_OVERRIDES name v fs)
  = getitem NAME_OVERRIDES name' fs.
Proof. apply assoc_get_set_other. Qed.

Lemma block_digest_stored k bh ph cl fs :
  getitem NAME_OVERRIDES "WARC-Block-Digest" (store_digests k (bh, ph, cl) fs)
  = Some (sha1_label (digest bh)).
Proof.
  unfold store_digests.
  rewrite getitem_setitem_other by discriminate.
  destruct k.
  - rewrite getitem_setitem_other by discriminate. apply getitem_setitem_same.
  - apply getitem_setitem_same.
Qed.

Lemma payload_digest_stored k bh ph cl fs :
  getitem NAME_OVERRIDES "WARC-Payload-Digest" (store_digests (Some k) (bh, ph, cl) fs)
  = Some (sha1_label (digest ph)).
Proof.
  unfold store_digests.
  rewrite getitem_setitem_other by discriminate.
  apply getitem_setitem_same.
Qed.

Lemma payload_digest_untouched out fs :
  getitem NAME_OVERRIDES "WARC-Payload-Digest" (store_digests None out fs)
  = getitem NAME_OVERRIDES "WARC-Payload-Digest" fs.
Proof.
  destruct out as [[bh ph] cl]. unfold store_digests.
  rewrite !getitem_setitem_other by discriminate. reflexivity.
Qed.

Lemma content_length_stored k bh ph cl fs :
  getitem NAME_OVERRIDES "Content-Length" (store_digests k (bh, ph, cl) fs)
  = Some (str_of_int (Z.of_nat cl)).
Proof. unfold store_digests. apply getitem_setitem_same. Qed.

(** ** Serialization *)

Lemma iterate_attached fs f :
  iterate {| fields := fs; block_file := Some f |} =
  match reset_file_offset (fuel <- loop_bound ;; iter_loop fuel)
          (frame fs (Some f) (head_chunks fs)) with
  | (s, Ok _) => (self s, yielded s ++ [CRLF ++ CRLF], Ok tt)
  | (s, Raise e) => (self s, yielded s, Raise e)
  | (s, OutOfFuel) => (self s, yielded s, OutOfFuel)
  end.
Proof.
  unfold iterate.
  change (iter {| self := {| fields := fs; block_file := Some f |}; yielded := [] |})
    with (match reset_file_offset (fuel <- loop_bound ;; iter_loop fuel)
                  (frame fs (Some f) (head_chunks fs)) with
          | (s, Ok _) => yield_ (CRLF ++ CRLF) s
          | (s, Raise e) => (s, Raise e)
          | (s, OutOfFuel) => (s, OutOfFuel)
          end).
  destruct (reset_file_offset (fuel <- loop_bound ;; iter_loop fuel)
              (frame fs (Some f) (head_chunks fs))) as [s [[]| e |]];
    reflexivity.
Qed.

Lemma iterate_no_block fs :
  iterate {| fields := fs; block_file := None |} =
  ({| fields := fs; block_file := None |}, head_chunks fs, Raise AttributeError).
Proof. reflexivity. Qed.

Lemma iter_body_ok fs f ys :
  readable f ->
  exists chunks,
    List.concat chunks = unread f /\
    reset_file_offset (fuel <- loop_bound ;; iter_loop fuel) (frame fs (Some f) ys)
    = (frame fs (Some f) (ys ++ chunks), Ok tt).
Proof.
  intros Hf.
  destruct (iter_loop_ok (S (List.length (content f) - pos f)) fs f ys Hf
              ltac:(lia)) as (chunks & Hcat & _ & Hrun).
  exists chunks. split; [exact Hcat|].
  apply (reset_file_offset_ok _ fs f ys (end_pos f)).
  unfold bind, loop_bound. cbn [frame self block_file]. exact Hrun.
Qed.

Lemma iterate_ok fs f :
  readable f ->
  exists chunks,
    List.concat chunks = unread f /\
    iterate {| fields := fs; block_file := Some f |} =
    ({| fields := fs; block_file := Some f |},
     (head_chunks fs ++ chunks) ++ [CRLF ++ CRLF], Ok tt).
Proof.
  intros Hf.
  destruct (iter_body_ok fs f (head_chunks fs) Hf) as (chunks & Hcat & Hrun).
  exists chunks. split; [exact Hcat|].
  rewrite iterate_attached, Hrun. reflexivity.
Qed.

(** What driving the iterator of a record with a block comes to: when it
    returns the record is as it was; when a read raises, the fields and the
    contents of the block are as they were. *)
Lemma iterate_shape fs f :
  exists chunks (res : Exn * nat + unit),
    iterate {| fields := fs; block_file := Some f |} =
    match res with
    | inr _ => ({| fields := fs; block_file := Some f |}, chunks, Ok tt)
    | inl (e, p) =>
        ({| fields := fs; block_file := Some (at_pos p f) |}, chunks, Raise e)
    end.
Proof.
  destruct (reset_file_offset_restores _ f (head_chunks fs) block_only_iter_body
              (fun fs' => iter_body_returns fs' f (head_chunks fs)))
    as (ys' & res & E).
  rewrite iterate_attached, E.
  destruct res as [[e p]|[]].
  - exists ys', (inl (e, p)). reflexivity.
  - exists (ys' ++ [CRLF ++ CRLF]), (inr tt). reflexivity.
Qed.

Lemma keys_assoc_set (k v : string) (l : NameValueRecord) :
  map fst (assoc_set k v l) = note_name (map fst l) k.
Proof.
  unfold note_name. induction l as [|[k' v'] l IH]; cbn; [reflexivity|].
  destruct (String.eqb k' k); cbn; [reflexivity|].
  rewrite IH. destruct (existsb (fun k0 => String.eqb k0 k) (map fst l));
    reflexivity.
Qed.

Lemma keys_assign_all (l : list (string * string)) (fs : NameValueRecord) :
  map fst (assign_all l fs) = insertion_order (map fst fs) (map fst l).
Proof.
  unfold insertion_order.
  revert fs. induction l as [|[n v] l IH]; intros fs; cbn; [reflexivity|].
  unfold assign_all in IH. rewrite IH. unfold setitem.
  rewrite keys_assoc_set. reflexivity.
Qed.

(** ** The digest label *)

Lemma empty_digest_label : sha1_label (SHA1.sha1 []) = EMPTY_DIGEST.
Proof. vm_compute. reflexivity. Qed.

Lemma b32tab_in_alphabet (x : Z) :
  In (Base32.b32tab (Z.land x 31)) Base32.alphabet.
Proof.
  unfold Base32.b32tab. apply nth_In.
  change (List.length Base32.alphabet) with 32%nat.
  change 31 with (Z.ones 5). rewrite Z.land_ones by lia.
  pose proof (Z.mod_pos_bound x (2 ^ 5) ltac:(lia)). lia.
Qed.

Lemma quantum_in_alphabet (a b c d e : byte) :
  Forall (fun ch => In ch Base32.alphabet) (Base32.quantum a b c d e).
Proof.
  unfold Base32.quantum. cbv zeta. apply Forall_forall. intros ch Hch.
  apply in_map_iff in Hch. destruct Hch as (k & <- & _).
  apply b32tab_in_alphabet.
Qed.

Lemma quanta_in_alphabet (n : nat) (s : bytes) :
  (List.length s <= n)%nat ->
  Forall (fun ch => In ch Base32.alphabet) (Base32.quanta s).
Proof.
  revert s. induction n as [|n IH]; intros s Hs.
  - destruct s; [constructor|cbn in Hs; lia].
  - destruct s as [|a [|b [|c [|d [|e rest]]]]]; cbn [Base32.quanta];
      try solve [constructor].
    apply Forall_app. split; [apply quantum_in_alphabet|].
    apply IH. cbn in Hs. lia.
Qed.

Lemma b32encode_digest (h : bytes) :
  List.length h = 20%nat ->
  Base32.b32encode h = Base32.quanta h /\
  List.length (Base32.quanta h) = 32%nat.
Proof.
  intros Hlen. unfold Base32.b32encode. rewrite Hlen.
  change (20 mod 5)%nat with 0%nat. cbv zeta iota. cbn [Base32.padding repeat].
  rewrite Nat.sub_0_r, firstn_all, app_nil_r. split; [reflexivity|].
  do 20 (destruct h as [|? h]; [discriminate|]).
  destruct h; [reflexivity|discriminate].
Qed.

(** A digest label is the prefix, then 32 characters of the alphabet. *)
Lemma sha1_label_format (data : bytes) :
  let h := SHA1.sha1 data in
  List.length h = 20%nat /\
  sha1_label h = ("sha1:" ++ decode (Base32.b32encode h))%string /\
  List.length (Base32.b32encode h) = 32%nat /\
  Forall (fun ch => In ch Base32.alphabet) (Base32.b32encode h).
Proof.
  intros h. pose proof (sha1_length data) as Hlen. fold h in Hlen.
  destruct (b32encode_digest h Hlen) as [E L].
  split; [exact Hlen|]. split; [reflexivity|]. rewrite E. split; [exact L|].
  apply (quanta_in_alphabet (List.length h)). lia.
Qed.

Lemma store_digests_again k out fs :
  store_digests k out (store_digests k out fs) = store_digests k out fs.
Proof.
  destruct out as [[bh ph] cl].
  set (fs' := store_digests k (bh, ph, cl) fs).
  pose proof (block_digest_stored k bh ph cl fs) as HB.
  pose proof (content_length_stored k bh ph cl fs) as HC.
  fold fs' in HB, HC.
  unfold store_digests at 1.
  unfold setitem, getitem in *.
  destruct k as [k|].
  - pose proof (payload_digest_stored k bh ph cl fs) as HP.
    fold fs' in HP. unfold getitem in HP.
    rewrite (assoc_set_known _ _ _ HB), (assoc_set_known _ _ _ HP).
    apply assoc_set_known, HC.
  - rewrite (assoc_set_known _ _ _ HB). apply assoc_set_known, HC.
Qed.

(** ** A block that cannot be read to its end *)

Lemma not_readable_inv (f : File) :
  ~ readable f ->
  exists b, fault f = Some b /\ (pos f <= b)%nat /\ (b < List.length (content f))%nat.
Proof.
  unfold readable. destruct (fault f) as [b|]; [|intros H; destruct H; exact I].
  intros H. exists b. split; [reflexivity|]. lia.
Qed.

Lemma file_read_unreadable (size : Z) (f : File) (b : nat) :
  fault f = Some b ->
  (pos f <= b)%nat ->
  (b < List.length (content f))%nat ->
  file_read size f = (at_pos b f, Raise OSError) \/
  exists data,
    file_read size f = (at_pos (pos f + List.length data) f, Ok data) /\
    (pos f + List.length data <= b)%nat /\
    data = firstn (Z.to_nat size) (unread f).
Proof.
  intros Hb Hlo Hhi. destruct f as [c p fl]. cbn in Hb, Hlo, Hhi. subst fl.
  unfold file_read, at_pos, unread. cbn [content pos fault].
  match goal with
  | |- context [if ?c then Some b else None] => destruct c eqn:Ehit
  end; [left; reflexivity|right].
  apply andb_false_iff in Ehit.
  assert (Hmiss : forall d : bytes,
             ((p <=? b) = false \/ (b <? p + List.length d) = false)%nat ->
             (p + List.length d <= b)%nat).
  { intros d [H|H]; [apply Nat.leb_gt in H|apply Nat.ltb_ge in H]; lia. }
  destruct (size <? 0).
  - apply Hmiss in Ehit. rewrite length_skipn in Ehit. lia.
  - eexists. split; [reflexivity|]. split; [apply Hmiss, Ehit|reflexivity].
Qed.

Lemma firstn_chunk_nonempty (f : File) (b : nat) :
  (pos f <= b)%nat ->
  (b < List.length (content f))%nat ->
  firstn (Z.to_nat 4096) (unread f) <> [].
Proof.
  intros Hlo Hhi E. apply firstn_nil_inv in E; [|apply chunk_size_pos].
  pose proof (unread_length f) as Hlen. rewrite E in Hlen. cbn in Hlen. lia.
Qed.

Lemma checksum_loop_unreadable fuel bh ph fs f ys b :
  fault f = Some b ->
  (pos f <= b)%nat ->
  (b < List.length (content f))%nat ->
  (List.length (content f) - pos f < fuel)%nat ->
  checksum_loop fuel bh ph (frame fs (Some f) ys)
  = (frame fs (Some (at_pos b f)) ys, Raise OSError).
Proof.
  revert bh ph f. induction fuel as [|n IH]; intros bh ph f Hb Hlo Hhi Hfuel;
    [lia|].
  cbn [checksum_loop]. unfold bind at 1, block_read. cbn [frame self block_file].
  destruct (file_read_unreadable 4096 f b Hb Hlo Hhi)
    as [E|(data & E & Hmiss & Hdata)]; rewrite E; [reflexivity|].
  pose proof (firstn_chunk_nonempty f b Hlo Hhi) as Hne. rewrite <- Hdata in Hne.
  destruct data as [|x data]; [contradiction|].
  change (set_block ?f' (frame fs (Some f) ys)) with (frame fs (Some f') ys).
  refine (eq_trans (IH _ _ (at_pos _ f) _ _ _ _) _);
    cbn in *; try assumption; try lia.
  reflexivity.
Qed.


Lemma checksum_pass_unreadable k fs f ys b :
  fault f = Some b ->
  (pos f <= b)%nat ->
  (b < List.length (content f))%nat ->
  checksum_pass k (frame fs (Some f) ys)
  = (frame fs (Some (at_pos b f)) ys, Raise OSError).
Proof.
  intros Hb Hlo Hhi. unfold checksum_pass.
  assert (Hloop : forall bh f',
    fault f' = Some b ->
    (pos f' <= b)%nat ->
    (b < List.length (content f'))%nat ->
    (fuel <- loop_bound ;;
     '(block_hasher, payload_hasher) <- checksum_loop fuel bh sha1_new ;;
     content_length <- block_tell ;;
     ret (block_hasher, payload_hasher, content_length))
      (frame fs (Some f') ys)
    = (frame fs (Some (at_pos b f')) ys, Raise OSError)).
  { intros bh f' Hb' Hlo' Hhi'.
    unfold bind at 1, loop_bound. cbn [frame self block_file].
    unfold bind at 1. fold (frame fs (Some f') ys).
    rewrite (checksum_loop_unreadable
               (S (List.length (content f') - pos f')) bh sha1_new fs f' ys b
               Hb' Hlo' Hhi' ltac:(lia)).
    reflexivity. }
  destruct k as [k|].
  - unfold bind at 1. unfold bind at 1. unfold block_read.
    cbn [frame self block_file].
    destruct (file_read_unreadable k f b Hb Hlo Hhi)
      as [E|(data & E & Hmiss & Hdata)]; rewrite E; [reflexivity|].
    change (set_block ?f' {| self := {| fields := fs; block_file := Some f |};
                             yielded := ys |})
      with (frame fs (Some f') ys).
    unfold ret at 1. cbv beta iota.
    refine (eq_trans (Hloop _ (at_pos _ f) _ _ _) _); cbn; try assumption.
    reflexivity.
  - unfold bind at 1. cbn [ret]. apply Hloop; assumption.
Qed.

(** The outcome of [compute_checksum] and of serialization on a record whose
    block has an unreadable byte at or after the cursor. *)
Lemma compute_checksum_unreadable k fs f b :
  fault f = Some b ->
  (pos f <= b)%nat ->
  (b < List.length (content f))%nat ->
  call (compute_checksum k) {| fields := fs; block_file := Some f |}
  = ({| fields := fs; block_file := Some (at_pos b f) |}, Raise OSError).
Proof.
  intros Hb Hlo Hhi. unfold call.
  change {| self := {| fields := fs; block_file := Some f |}; yielded := [] |}
    with (frame fs (Some f) []).
  rewrite compute_checksum_attached.
  rewrite (reset_file_offset_raise _ fs f [] b [] OSError)
    by (apply checksum_pass_unreadable; assumption).
  reflexivity.
Qed.


Lemma readable_dec (f : File) : {readable f} + {~ readable f}.
Proof.
  unfold readable. destruct (fault f) as [b|]; [|left; exact I].
  destruct (lt_dec b (pos f)) as [H|H]; [left; left; exact H|].
  destruct (le_dec (List.length (content f)) b) as [H'|H'];
    [left; right; exact H'|].
  right. intros [H0|H0]; contradiction.
Qed.

(** ** Termination

    The read loops are given one more round than there are unread bytes;
    they never use it up. *)

Lemma compute_checksum_returns (k : option Z) (r : WARCRecord) :
  snd (call (compute_checksum k) r) <> OutOfFuel.
Proof.
  destruct r as [fs [f|]].
  - destruct (compute_checksum_shape k f) as [[[e p]|out] E]; rewrite E;
      discriminate.
  - rewrite compute_checksum_no_block. discriminate.
Qed.

Lemma set_content_length_returns (r : WARCRecord) :
  snd (call set_content_length r) = Ok tt.
Proof.
  destruct r as [fs [f|]].
  - rewrite set_content_length_attached. reflexivity.
  - reflexivity.
Qed.

Lemma iterate_returns (r : WARCRecord) : snd (iterate r) <> OutOfFuel.
Proof.
  destruct r as [fs [f|]].
  - destruct (iterate_shape fs f) as (chunks & [[e p]|[]] & E); rewrite E;
      discriminate.
  - rewrite iterate_no_block. discriminate.
Qed.

(** * The claims *)

(** C1, as amended. For a block that reads without error and whose cursor is
    at the start, and an offset [k] with [0 <= k <= L]:
    [compute_checksum(payload_offset=k)] returns, WARC-Payload-Digest is the
    sha1-prefixed Base32 digest of the bytes [[k:L)], WARC-Block-Digest is
    that of the whole block [[0:L)] (whatever [k] is), and with [k = 0] the
    payload digest covers the whole block. *)
Theorem digests_of_payload_and_block fs f k :
  readable f ->
  pos f = 0%nat ->
  0 <= k <= Z.of_nat (List.length (content f)) ->
  let out := call (compute_checksum (Some k))
               {| fields := fs; block_file := Some f |} in
  snd out = Ok tt /\
  field "WARC-Payload-Digest" (fst out)
    = Some (sha1_label (SHA1.sha1 (skipn (Z.to_nat k) (content f)))) /\
  field "WARC-Block-Digest" (fst out)
    = Some (sha1_label (SHA1.sha1 (content f))) /\
  (k = 0 -> field "WARC-Payload-Digest" (fst out)
            = Some (sha1_label (SHA1.sha1 (content f)))).
Proof.
  intros Hf Hpos Hk out. subst out.
  rewrite (compute_checksum_ok (Some k) fs f Hf).
  unfold pass_result, field. cbn [fst snd fields].
  rewrite payload_digest_stored, block_digest_stored.
  unfold digest, payload_part, unread. cbn [fed]. rewrite Hpos.
  destruct (k <? 0) eqn:E; [apply Z.ltb_lt in E; lia|].
  cbn [skipn]. repeat split; try reflexivity.
  intros ->. reflexivity.
Qed.

(** C2, as amended. For a record whose fields were set by assignments
    [fields[name] = value] and whose block reads without error with its
    cursor at the start: driving the iterator to its end yields chunks whose
    concatenation is "WARC/1.0", CRLF, one line per field in order of first
    insertion ([Name: Value] CRLF, or [Name:] CRLF when the value is empty),
    CRLF, the bytes of the block from start to end, CRLF CRLF; the names are
    the normalized names; the record is left as it was. *)
Theorem serialized_layout assigns f :
  readable f ->
  pos f = 0%nat ->
  let fs := assign_all assigns [] in
  let r := {| fields := fs; block_file := Some f |} in
  let line (nv : string * string) :=
    match snd nv with
    | EmptyString => encode (fst nv ++ ":") ++ CRLF
    | _ => encode (fst nv ++ ": " ++ snd nv) ++ CRLF
    end in
  exists chunks,
    iterate r = (r, chunks, Ok tt) /\
    List.concat chunks
    = encode "WARC/1.0" ++ CRLF ++ List.concat (map line fs) ++ CRLF
        ++ content f ++ CRLF ++ CRLF /\
    map fst fs = insertion_order [] (map fst assigns).
Proof.
  intros Hf Hpos fs r line.
  destruct (iterate_ok fs f Hf) as (chunks & Hcat & Hrun).
  exists ((head_chunks fs ++ chunks) ++ [CRLF ++ CRLF]).
  split; [exact Hrun|]. split; [|apply (keys_assign_all assigns [])].
  rewrite !concat_app, Hcat. unfold unread. rewrite Hpos.
  unfold head_chunks, to_bytes. cbn [List.concat skipn].
  rewrite !app_nil_r, <- !app_assoc. reflexivity.
Qed.

(** C3, as amended. For a record with an attached block of length 0 whose
    cursor is at the start, [compute_checksum] (with or without a payload
    offset) returns with Content-Length "0" and WARC-Block-Digest set to the
    label of the digest of the empty byte string; WARC-Payload-Digest is set
    to the same label when a payload offset was given and is left as it was
    otherwise. *)
Theorem empty_block_checksum fs f k :
  content f = [] ->
  pos f = 0%nat ->
  let out := call (compute_checksum k) {| fields := fs; block_file := Some f |} in
  snd out = Ok tt /\
  field "Content-Length" (fst out) = Some "0"%string /\
  field "WARC-Block-Digest" (fst out) = Some EMPTY_DIGEST /\
  field "WARC-Payload-Digest" (fst out)
    = match k with
      | Some _ => Some EMPTY_DIGEST
      | None => getitem NAME_OVERRIDES "WARC-Payload-Digest" fs
      end.
Proof.
  intros Hc Hpos out. subst out.
  rewrite (compute_checksum_ok k fs f (readable_empty f Hc)).
  unfold pass_result, field. cbn [fst snd fields].
  rewrite content_length_stored, block_digest_stored.
  assert (Hu : unread f = []) by (unfold unread; rewrite Hc; apply skipn_nil).
  assert (He : end_pos f = 0%nat) by (unfold end_pos; rewrite Hc, Hpos; reflexivity).
  unfold digest. cbn [fed]. rewrite Hu, He, empty_digest_label.
  split; [reflexivity|]. split; [reflexivity|]. split; [reflexivity|].
  destruct k as [k|].
  - rewrite payload_digest_stored. unfold digest, payload_part. cbn [fed].
    rewrite Hu, skipn_nil. destruct (k <? 0); rewrite empty_digest_label;
      reflexivity.
  - apply payload_digest_untouched.
Qed.

(** C4, as amended. After a call of [compute_checksum] that returns,
    WARC-Block-Digest is present iff a block is attached or the field was
    present before the call, and WARC-Payload-Digest is present iff a block
    is attached and a payload offset was given, or the field was present
    before the call; a call that raises leaves the fields as they were. *)
Theorem digest_presence fs bf k :
  let out := call (compute_checksum k) {| fields := fs; block_file := bf |} in
  match snd out with
  | Ok _ =>
      (contains NAME_OVERRIDES "WARC-Block-Digest" (fields (fst out)) = true
       <-> bf <> None
           \/ contains NAME_OVERRIDES "WARC-Block-Digest" fs = true) /\
      (contains NAME_OVERRIDES "WARC-Payload-Digest" (fields (fst out)) = true
       <-> (bf <> None /\ k <> None)
           \/ contains NAME_OVERRIDES "WARC-Payload-Digest" fs = true)
  | Raise _ => fields (fst out) = fs
  | OutOfFuel => False
  end.
Proof.
  intros out. subst out. destruct bf as [f|].
  - destruct (compute_checksum_shape k f) as [[[e p]|[[bh ph] cl]] E];
      rewrite E; cbn [fst snd fields]; [reflexivity|].
    unfold contains. rewrite block_digest_stored.
    split; [split; [intros _; left; discriminate|reflexivity]|].
    destruct k as [k|].
    + rewrite payload_digest_stored.
      split; [intros _; left; split; discriminate|reflexivity].
    + rewrite payload_digest_untouched.
      split; [intros H; right; exact H|].
      intros [[_ H]|H]; [contradiction|exact H].
  - rewrite compute_checksum_no_block. cbn [fst snd fields].
    unfold contains. rewrite !getitem_setitem_other by discriminate.
    split; (split; [intros H; right; exact H|]).
    + intros [H|H]; [contradiction|exact H].
    + intros [[H _]|H]; [contradiction|exact H].
Qed.


(** C6. For a record with no block attached, [compute_checksum] (with or
    without a payload offset) and [set_content_length] both return, set
    Content-Length to "0" and leave the two digest fields as they were. *)
Theorem no_block_content_length fs k :
  let r := {| fields := fs; block_file := None |} in
  let r' := {| fields := setitem NAME_OVERRIDES "Content-Length" "0" fs;
               block_file := None |} in
  call (compute_checksum k) r = (r', Ok tt) /\
  call set_content_length r = (r', Ok tt) /\
  field "Content-Length" r' = Some "0"%string /\
  field "WARC-Block-Digest" r' = getitem NAME_OVERRIDES "WARC-Block-Digest" fs /\
  field "WARC-Payload-Digest" r'
    = getitem NAME_OVERRIDES "WARC-Payload-Digest" fs.
Proof.
  intros r r'. subst r r'. unfold field. cbn [fields].
  split; [reflexivity|]. split; [reflexivity|].
  split; [apply getitem_setitem_same|].
  split; apply getitem_setitem_other; discriminate.
Qed.

(** C7. Every digest field written by a call of [compute_checksum] that
    returns is "sha1:" followed by the padded standard-alphabet Base32
    encoding of a 20-byte SHA-1 digest, which is 32 characters of the
    alphabet; the digest of the empty byte string encodes to
    3I42H3S6NNFQ2MSVX7XZKYAYSCX5QBYJ. *)
Theorem digest_field_format fs f k r' :
  call (compute_checksum k) {| fields := fs; block_file := Some f |} = (r', Ok tt) ->
  (exists data,
      let h := SHA1.sha1 data in
      field "WARC-Block-Digest" r'
        = Some ("sha1:" ++ decode (Base32.b32encode h))%string /\
      List.length h = 20%nat /\
      List.length (Base32.b32encode h) = 32%nat /\
      Forall (fun ch => In ch Base32.alphabet) (Base32.b32encode h)) /\
  (k <> None ->
   exists data,
      let h := SHA1.sha1 data in
      field "WARC-Payload-Digest" r'
        = Some ("sha1:" ++ decode (Base32.b32encode h))%string /\
      List.length h = 20%nat /\
      List.length (Base32.b32encode h) = 32%nat /\
      Forall (fun ch => In ch Base32.alphabet) (Base32.b32encode h)) /\
  decode (Base32.b32encode (SHA1.sha1 []))
    = "3I42H3S6NNFQ2MSVX7XZKYAYSCX5QBYJ"%string.
Proof.
  intros Hrun.
  destruct (compute_checksum_shape k f) as [[[e p]|[[bh ph] cl]] E];
    rewrite E in Hrun; [discriminate|].
  injection Hrun as <-. unfold field. cbn [fields].
  split; [|split].
  - exists (fed bh). cbv zeta.
    destruct (sha1_label_format (fed bh)) as (H1 & H2 & H3 & H4).
    split; [exact (block_digest_stored k bh ph cl fs)|].
    split; [exact H1|]. split; [exact H3|exact H4].
  - intros Hk. destruct k as [k|]; [|contradiction].
    exists (fed ph). cbv zeta.
    destruct (sha1_label_format (fed ph)) as (H1 & H2 & H3 & H4).
    split; [exact (payload_digest_stored k bh ph cl fs)|].
    split; [exact H1|]. split; [exact H3|exact H4].
  - vm_compute. reflexivity.
Qed.

(** C8, as amended. For a record whose block is an in-memory stream
    ([io.BytesIO]) that reads without error, [compute_checksum] with a
    negative payload offset within the index range raises nothing: the first
    read takes every unread byte, the call returns, WARC-Payload-Digest is
    the label of the digest of the empty byte string and WARC-Block-Digest
    that of the unread bytes. *)
Theorem negative_offset_completes fs f k :
  readable f ->
  in_index_range k ->
  k < 0 ->
  let out := call (compute_checksum (Some k))
               {| fields := fs; block_file := Some f |} in
  snd out = Ok tt /\
  field "WARC-Payload-Digest" (fst out) = Some EMPTY_DIGEST /\
  field "WARC-Block-Digest" (fst out) = Some (sha1_label (SHA1.sha1 (unread f))).
Proof.
  intros Hf _ Hk out. subst out.
  rewrite (compute_checksum_ok (Some k) fs f Hf).
  unfold pass_result, field. cbn [fst snd fields].
  rewrite payload_digest_stored, block_digest_stored.
  unfold digest, payload_part. cbn [fed].
  apply Z.ltb_lt in Hk. rewrite Hk, empty_digest_label.
  repeat split; reflexivity.
Qed.

(** C9. [compute_checksum] is idempotent: for every record and every payload
    offset argument, a second call with the same argument leaves the record
    (all its fields, and the block) as the first call left it, and ends the
    way the first call ended. *)
Theorem compute_checksum_idempotent r k :
  let once := call (compute_checksum k) r in
  let twice := call (compute_checksum k) (fst once) in
  fst twice = fst once /\ snd twice = snd once.
Proof.
  intros once twice. subst once twice. destruct r as [fs [f|]].
  - destruct (readable_dec f) as [Hf|Hf].
    + rewrite (compute_checksum_ok k fs f Hf). cbn [fst].
      rewrite (compute_checksum_ok k _ f Hf). cbn [fst snd].
      rewrite store_digests_again. split; reflexivity.
    + destruct (not_readable_inv f Hf) as (b & Hb & Hlo & Hhi).
      rewrite (compute_checksum_unreadable k fs f b Hb Hlo Hhi). cbn [fst].
      rewrite (compute_checksum_unreadable k fs (at_pos b f) b Hb (le_n b) Hhi).
      split; reflexivity.
  - rewrite !compute_checksum_no_block. cbn [fst].
    rewrite compute_checksum_no_block. cbn [fst snd].
    unfold setitem. rewrite (assoc_set_known _ _ (assoc_set _ _ fs)).
    + split; reflexivity.
    + apply assoc_get_set_same.
Qed.

(** C10. For a record with no block attached, serialization yields the
    version line, CRLF, the field block and CRLF, and then raises when it
    enters the scoped cursor save/restore on the missing block: it does not
    produce a record with an empty body. *)
Theorem serialize_without_block_raises fs :
  let r := {| fields := fs; block_file := None |} in
  iterate r = (r, [encode VERSION; CRLF; to_bytes fs; CRLF], Raise AttributeError).
Proof. reflexivity. Qed.

(** * Further properties *)

(** ** More on field assignments *)

Lemma assoc_set_set (k v v' : string) (l : NameValueRecord) :
  assoc_set k v' (assoc_set k v l) = assoc_set k v' l.
Proof.
  induction l as [|[k0 v0] l IH]; cbn.
  - rewrite String.eqb_refl. reflexivity.
  - destruct (String.eqb k0 k) eqn:E; cbn; rewrite E; [reflexivity|].
    rewrite IH. reflexivity.
Qed.

Lemma assoc_set_swap (k1 k2 v1 v2 : string) (l : NameValueRecord) :
  k1 <> k2 ->
  assoc_get k1 l <> None ->
  assoc_set k1 v1 (assoc_set k2 v2 l) = assoc_set k2 v2 (assoc_set k1 v1 l).
Proof.
  intros Hne. induction l as [|[k0 v0] l IH]; cbn; [contradiction|].
  destruct (String.eqb k0 k1) eqn:E1; destruct (String.eqb k0 k2) eqn:E2.
  - apply String.eqb_eq in E1, E2. congruence.
  - intros _. cbn. rewrite E1, E2. reflexivity.
  - intros Hin. cbn. rewrite E1, E2. reflexivity.
  - intros Hin. cbn. rewrite E1, E2. rewrite IH by exact Hin. reflexivity.
Qed.

Lemma assoc_get_in (k v : string) (l : NameValueRecord) :
  assoc_get k l = Some v -> In (k, v) l.
Proof.
  induction l as [|[k0 v0] l IH]; cbn; [discriminate|].
  destruct (String.eqb k0 k) eqn:E.
  - apply String.eqb_eq in E. intros [= ->]. left. congruence.
  - intros H. right. auto.
Qed.

Lemma existsb_eqb_in (k : string) (ks : list string) :
  existsb (fun k0 => String.eqb k0 k) ks = true <-> In k ks.
Proof.
  rewrite existsb_exists. split.
  - intros (k0 & Hin & E). apply String.eqb_eq in E. congruence.
  - intros Hin. exists k. split; [exact Hin|apply String.eqb_refl].
Qed.

Lemma note_name_nodup (ks : list string) (k : string) :
  NoDup ks -> NoDup (note_name ks k).
Proof.
  intros Hnd. unfold note_name.
  destruct (existsb (fun k0 => String.eqb k0 k) ks) eqn:E; [exact Hnd|].
  assert (Hnot : ~ In k ks).
  { intros Hin. apply existsb_eqb_in in Hin. congruence. }
  apply NoDup_app; [exact Hnd|repeat constructor; intros []|].
  intros x Hx [<-|[]]. contradiction.
Qed.

Lemma setitem_nodup name v (fs : NameValueRecord) :
  NoDup (names_of fs) -> NoDup (names_of (setitem NAME_OVERRIDES name v fs)).
Proof.
  unfold names_of, setitem. rewrite keys_assoc_set. apply note_name_nodup.
Qed.

Lemma set_common_fields_run wt ct now urn fs bf :
  call (set_common_fields wt ct now urn) {| fields := fs; block_file := bf |} =
  ({| fields :=
        setitem NAME_OVERRIDES WARC_RECORD_ID ("<" ++ urn ++ ">")
          (setitem NAME_OVERRIDES WARC_DATE now
             (setitem NAME_OVERRIDES CONTENT_TYPE ct
                (setitem NAME_OVERRIDES WARC_TYPE wt fs)));
      block_file := bf |}, Ok tt).
Proof. reflexivity. Qed.

Ltac present :=
  repeat first
    [ rewrite assoc_get_set_same; discriminate
    | rewrite assoc_get_set_other by discriminate ].

(** ** set_common_fields *)

(** X1. [set_common_fields] returns and leaves the block alone; afterwards
    the four mandatory fields hold the type, the content type, the date and
    the identifier in angle brackets; every field with another name is as it
    was; the four names stand in the field block where they stood, or else at
    its end in the order type, content type, date, identifier. *)
Theorem set_common_fields_sets wt ct now urn fs bf :
  let out := call (set_common_fields wt ct now urn)
               {| fields := fs; block_file := bf |} in
  snd out = Ok tt /\
  block_file (fst out) = bf /\
  field "WARC-Type" (fst out) = Some wt /\
  field "Content-Type" (fst out) = Some ct /\
  field "WARC-Date" (fst out) = Some now /\
  field "WARC-Record-ID" (fst out) = Some ("<" ++ urn ++ ">")%string /\
  (forall name,
      ~ In (normalize_name NAME_OVERRIDES name) COMMON_NAMES ->
      field name (fst out) = getitem NAME_OVERRIDES name fs) /\
  names_of (fields (fst out)) = insertion_order (names_of fs) COMMON_NAMES /\
  (NoDup (names_of fs) -> NoDup (names_of (fields (fst out)))).
Proof.
  intros out. subst out. rewrite set_common_fields_run.
  unfold field. cbn [fst snd fields block_file].
  split; [reflexivity|]. split; [reflexivity|].
  split; [rewrite !getitem_setitem_other by discriminate;
          apply getitem_setitem_same|].
  split; [rewrite !getitem_setitem_other by discriminate;
          apply getitem_setitem_same|].
  split; [rewrite !getitem_setitem_other by discriminate;
          apply getitem_setitem_same|].
  split; [apply getitem_setitem_same|].
  split.
  - intros name Hname. unfold COMMON_NAMES in Hname. cbn [In] in Hname.
    rewrite !getitem_setitem_other; [reflexivity| | | |];
      intros E; apply Hname; rewrite <- E; cbn; auto.
  - split; [unfold names_of, setitem; rewrite !keys_assoc_set; reflexivity|].
    intros Hnd. repeat apply setitem_nodup. exact Hnd.
Qed.

(** X2. Populating the mandatory fields a second time is the same as
    populating them once with the second values: the later type, content
    type, date and identifier replace the earlier ones in place, and the
    field block has no second copy of any of them. *)
Theorem set_common_fields_again wt1 ct1 now1 urn1 wt2 ct2 now2 urn2 r :
  call (set_common_fields wt2 ct2 now2 urn2)
    (fst (call (set_common_fields wt1 ct1 now1 urn1) r))
  = call (set_common_fields wt2 ct2 now2 urn2) r.
Proof.
  destruct r as [fs bf]. rewrite !set_common_fields_run. cbn [fst].
  rewrite set_common_fields_run. f_equal. f_equal.
  unfold setitem.
  change (normalize_name NAME_OVERRIDES WARC_TYPE) with "WARC-Type"%string.
  change (normalize_name NAME_OVERRIDES CONTENT_TYPE) with "Content-Type"%string.
  change (normalize_name NAME_OVERRIDES WARC_DATE) with "WARC-Date"%string.
  change (normalize_name NAME_OVERRIDES WARC_RECORD_ID)
    with "WARC-Record-ID"%string.
  rewrite (assoc_set_swap "WARC-Type" "WARC-Record-ID") by (try discriminate; present).
  rewrite (assoc_set_swap "WARC-Type" "WARC-Date") by (try discriminate; present).
  rewrite (assoc_set_swap "WARC-Type" "Content-Type") by (try discriminate; present).
  rewrite assoc_set_set.
  rewrite (assoc_set_swap "Content-Type" "WARC-Record-ID")
    by (try discriminate; present).
  rewrite (assoc_set_swap "Content-Type" "WARC-Date") by (try discriminate; present).
  rewrite assoc_set_set.
  rewrite (assoc_set_swap "WARC-Date" "WARC-Record-ID")
    by (try discriminate; present).
  rewrite !assoc_set_set. reflexivity.
Qed.

(** ** Reading a length back *)

Lemma parse_str_of_int (z : Z) : parse_int (str_of_int z) = Some z.
Proof.
  unfold parse_int, str_of_int.
  rewrite NilZero.isi.
  - cbn [option_map]. rewrite DecimalZ.of_to. reflexivity.
  - destruct z; cbn; try discriminate.
    intros [= E]. exact (Unsigned.to_uint_nonnil _ E).
  - destruct z; cbn; try discriminate.
    intros [= E]. exact (Unsigned.to_uint_nonnil _ E).
Qed.

Lemma str_of_int_inj (a b : Z) : str_of_int a = str_of_int b -> a = b.
Proof.
  intros E. apply (f_equal parse_int) in E.
  rewrite !parse_str_of_int in E. congruence.
Qed.

(** ** compute_checksum and set_content_length, whatever the cursor *)

Lemma store_digests_other k out name fs :
  ~ In (normalize_name NAME_OVERRIDES name) CHECKSUM_NAMES ->
  getitem NAME_OVERRIDES name (store_digests k out fs)
  = getitem NAME_OVERRIDES name fs.
Proof.
  intros Hname. destruct out as [[bh ph] cl]. unfold store_digests.
  unfold CHECKSUM_NAMES in Hname. cbn [In] in Hname.
  destruct k as [k|];
    rewrite !getitem_setitem_other; try reflexivity;
    intros E; apply Hname; rewrite <- E; cbn; auto.
Qed.

Lemma store_digests_nodup k out fs :
  NoDup (names_of fs) -> NoDup (names_of (store_digests k out fs)).
Proof.
  intros Hnd. destruct out as [[bh ph] cl]. unfold store_digests.
  destruct k as [k|]; repeat apply setitem_nodup; exact Hnd.
Qed.

(** X3. With a payload offset [k >= 0] on a block that reads without error,
    whatever its cursor [p]: the call returns and WARC-Payload-Digest is the
    label of the digest of the bytes from [p + k] to the end of the block. *)
Theorem payload_digest_from_cursor fs f k :
  readable f ->
  0 <= k ->
  let out := call (compute_checksum (Some k))
               {| fields := fs; block_file := Some f |} in
  snd out = Ok tt /\
  field "WARC-Payload-Digest" (fst out)
  = Some (sha1_label (SHA1.sha1 (skipn (pos f + Z.to_nat k) (content f)))).
Proof.
  intros Hf Hk out. subst out.
  rewrite (compute_checksum_ok (Some k) fs f Hf).
  unfold pass_result, field. cbn [fst snd fields].
  rewrite payload_digest_stored.
  unfold digest, payload_part, unread. cbn [fed].
  destruct (k <? 0) eqn:E; [apply Z.ltb_lt in E; lia|].
  rewrite skipn_skipn, (Nat.add_comm (Z.to_nat k)). split; reflexivity.
Qed.

(** X4. On an in-memory stream ([io.BytesIO]) that reads without error, a
    payload offset within the index range that reaches or passes the end of
    the block is no error: the first read comes back short, the call
    returns, and the payload digest is that of the empty byte string while
    the block digest still covers every unread byte. *)
Theorem offset_past_end_empty_payload fs f k :
  readable f ->
  in_index_range k ->
  Z.of_nat (List.length (content f) - pos f) <= k ->
  let out := call (compute_checksum (Some k))
               {| fields := fs; block_file := Some f |} in
  snd out = Ok tt /\
  field "WARC-Payload-Digest" (fst out) = Some EMPTY_DIGEST /\
  field "WARC-Block-Digest" (fst out)
  = Some (sha1_label (SHA1.sha1 (skipn (pos f) (content f)))).
Proof.
  intros Hf _ Hk out. subst out.
  rewrite (compute_checksum_ok (Some k) fs f Hf).
  unfold pass_result, field. cbn [fst snd fields].
  rewrite payload_digest_stored, block_digest_stored.
  unfold digest, payload_part. cbn [fed].
  destruct (k <? 0) eqn:E; [apply Z.ltb_lt in E; lia|].
  rewrite skipn_all2 by (rewrite unread_length; lia).
  rewrite empty_digest_label. repeat split; reflexivity.
Qed.

(** X5. On an in-memory stream ([io.BytesIO]) that reads without error, the
    block digest and the content length do not depend on the payload offset
    argument, be it absent or any offset within the index range, negative
    or beyond the end: WARC-Block-Digest is the label of the digest of the
    bytes from the cursor to the end, and Content-Length is the decimal of
    the cursor position reached, the greater of the block length and the
    cursor at the call. Without the argument WARC-Payload-Digest is left as
    it was. *)
Theorem block_digest_and_length_ignore_offset fs f k :
  readable f ->
  (forall k', k = Some k' -> in_index_range k') ->
  let out := call (compute_checksum k) {| fields := fs; block_file := Some f |} in
  snd out = Ok tt /\
  field "WARC-Block-Digest" (fst out)
  = Some (sha1_label (SHA1.sha1 (skipn (pos f) (content f)))) /\
  field "Content-Length" (fst out)
  = Some (str_of_int (Z.of_nat (Nat.max (pos f) (List.length (content f))))) /\
  (k = None ->
   field "WARC-Payload-Digest" (fst out)
   = getitem NAME_OVERRIDES "WARC-Payload-Digest" fs).
Proof.
  intros Hf _ out. subst out.
  rewrite (compute_checksum_ok k fs f Hf).
  unfold pass_result, field. cbn [fst snd fields].
  rewrite block_digest_stored, content_length_stored.
  repeat split; try reflexivity.
  intros ->. apply payload_digest_untouched.
Qed.

(** X6. Whatever the record, the argument and the outcome,
    [compute_checksum] leaves every field other than WARC-Block-Digest,
    WARC-Payload-Digest and Content-Length as it was and keeps the field
    names free of duplicates if they were; when it returns it hands the
    block back as it was, and when a read raises the block still has its
    contents, though not its cursor. *)
Theorem compute_checksum_frame fs bf k :
  let out := call (compute_checksum k) {| fields := fs; block_file := bf |} in
  (forall name,
      ~ In (normalize_name NAME_OVERRIDES name) CHECKSUM_NAMES ->
      field name (fst out) = getitem NAME_OVERRIDES name fs) /\
  (NoDup (names_of fs) -> NoDup (names_of (fields (fst out)))) /\
  match snd out with
  | Ok _ => block_file (fst out) = bf
  | _ => exists f f', bf = Some f /\ block_file (fst out) = Some f' /\
                      content f' = content f
  end.
Proof.
  intros out. subst out. unfold field. destruct bf as [f|].
  - destruct (compute_checksum_shape k f) as [[[e p]|out] E]; rewrite E;
      cbn [fst snd fields block_file].
    + split; [reflexivity|]. split; [auto|].
      exists f, (at_pos p f). repeat split; reflexivity.
    + split; [intros name Hname; apply store_digests_other, Hname|].
      split; [apply store_digests_nodup|reflexivity].
  - rewrite compute_checksum_no_block. cbn [fst snd fields block_file].
    split; [|split; [apply setitem_nodup|reflexivity]].
    intros name Hname. apply getitem_setitem_other.
    intros E. apply Hname. rewrite <- E. cbn. auto.
Qed.

(** X7. [set_content_length] on a record with a block never reads the block:
    wherever the cursor stands, and even when the block has an unreadable
    byte, it returns, the Content-Length it stores reads back as the length
    of the block, every other field and the block are as they were, and the
    field names stay free of duplicates. *)
Theorem set_content_length_measures fs f :
  let out := call set_content_length {| fields := fs; block_file := Some f |} in
  snd out = Ok tt /\
  (exists s, field "Content-Length" (fst out) = Some s /\
             parse_int s = Some (Z.of_nat (List.length (content f)))) /\
  (forall name,
      normalize_name NAME_OVERRIDES name <> "Content-Length"%string ->
      field name (fst out) = getitem NAME_OVERRIDES name fs) /\
  block_file (fst out) = Some f /\
  (NoDup (names_of fs) -> NoDup (names_of (fields (fst out)))).
Proof.
  intros out. subst out. rewrite set_content_length_attached.
  unfold field. cbn [fst snd fields block_file].
  split; [reflexivity|]. split.
  - eexists. split; [apply getitem_setitem_same|apply parse_str_of_int].
  - split; [|split; [reflexivity|apply setitem_nodup]].
    intros name Hname. apply getitem_setitem_other.
    intros E. apply Hname. rewrite <- E. reflexivity.
Qed.

(** X8. On a block that reads without error, [compute_checksum] stores the
    Content-Length that [set_content_length] would store exactly when the
    cursor stands within the block; and then a call of [set_content_length]
    after [compute_checksum] changes nothing. *)
Theorem content_length_agreement fs f k :
  readable f ->
  let r := {| fields := fs; block_file := Some f |} in
  let checked := fst (call (compute_checksum k) r) in
  (field "Content-Length" checked
   = field "Content-Length" (fst (call set_content_length r))
   <-> (pos f <= List.length (content f))%nat) /\
  ((pos f <= List.length (content f))%nat ->
   call set_content_length checked = (checked, Ok tt)).
Proof.
  intros Hf r checked. subst r checked.
  rewrite (compute_checksum_ok k fs f Hf), set_content_length_attached.
  unfold pass_result, field. cbn [fst fields].
  rewrite content_length_stored, getitem_setitem_same. unfold end_pos.
  split.
  - split.
    + intros [= E]. apply str_of_int_inj in E. lia.
    + intros Hle. do 2 f_equal. lia.
  - intros Hle. rewrite set_content_length_attached. f_equal. f_equal.
    unfold setitem. apply assoc_set_known.
    change (assoc_get (normalize_name NAME_OVERRIDES "Content-Length"))
      with (getitem NAME_OVERRIDES "Content-Length").
    rewrite content_length_stored. do 2 f_equal. lia.
Qed.

(** ** A block that cannot be read to its end: what the methods do *)



(** ** More on serialization *)

(** X11. Serializing a record whose block reads without error yields the
    block in chunks that are never empty and never longer than 4096 bytes,
    between the four leading chunks and the closing CRLF CRLF; together the
    chunks are the bytes from the cursor to the end of the block. *)
Theorem serialized_chunks_bounded fs f :
  readable f ->
  let r := {| fields := fs; block_file := Some f |} in
  exists chunks,
    iterate r = (r, (head_chunks fs ++ chunks) ++ [CRLF ++ CRLF], Ok tt) /\
    List.concat chunks = skipn (pos f) (content f) /\
    Forall (fun c => c <> [] /\ Z.of_nat (List.length c) <= 4096) chunks.
Proof.
  intros Hf r. subst r.
  destruct (iter_loop_ok (S (List.length (content f) - pos f)) fs f
              (head_chunks fs) Hf ltac:(lia)) as (chunks & Hcat & Hall & Hrun).
  exists chunks. split; [|split; [exact Hcat|exact Hall]].
  rewrite iterate_attached.
  rewrite (reset_file_offset_ok _ fs f (head_chunks fs) (end_pos f)
             (head_chunks fs ++ chunks) tt); [reflexivity|].
  unfold bind, loop_bound. cbn [frame self block_file]. exact Hrun.
Qed.

(** X12. After [compute_checksum] on a block that reads without error and
    whose cursor [p] stands within it, the serialized record carries a
    Content-Length field whose value reads back as the number of body bytes
    plus [p]: the declared length is the length of the serialized body
    exactly when the cursor is at the start. *)
Theorem declared_length_and_body fs f k :
  readable f ->
  (pos f <= List.length (content f))%nat ->
  let r := fst (call (compute_checksum k)
                  {| fields := fs; block_file := Some f |}) in
  exists chunks body declared,
    iterate r = (r, chunks, Ok tt) /\
    List.concat chunks
    = encode VERSION ++ CRLF ++ to_bytes (fields r) ++ CRLF
        ++ body ++ CRLF ++ CRLF /\
    In ("Content-Length"%string, declared) (fields r) /\
    parse_int declared = Some (Z.of_nat (pos f + List.length body)).
Proof.
  intros Hf Hle r. subst r.
  rewrite (compute_checksum_ok k fs f Hf). cbn [fst].
  set (fs' := store_digests k (pass_result k f) fs).
  destruct (iterate_ok fs' f Hf) as (chunks & Hcat & Hrun).
  exists ((head_chunks fs' ++ chunks) ++ [CRLF ++ CRLF]), (unread f),
    (str_of_int (Z.of_nat (end_pos f))).
  split; [exact Hrun|]. split; [|split].
  - rewrite !concat_app, Hcat. unfold head_chunks. cbn [List.concat fields].
    rewrite !app_nil_r, <- !app_assoc. reflexivity.
  - cbn [fields]. apply assoc_get_in.
    change (assoc_get "Content-Length")
      with (getitem NAME_OVERRIDES "Content-Length").
    subst fs'. unfold pass_result. apply content_length_stored.
  - rewrite parse_str_of_int, unread_length. unfold end_pos.
    do 2 f_equal. lia.
Qed.

(** X13. A serialization that returns can be repeated and disturbs nothing
    that follows: after the iterator has been driven to its end without a
    read raising, a second serialization yields the same chunks with the
    same outcome, and [compute_checksum] and [set_content_length] do what
    they would have done before it. *)
Theorem serialization_repeatable r k :
  snd (iterate r) = Ok tt ->
  let r' := fst (fst (iterate r)) in
  iterate r' = iterate r /\
  call (compute_checksum k) r' = call (compute_checksum k) r /\
  call set_content_length r' = call set_content_length r.
Proof.
  intros Hok r'. subst r'. destruct r as [fs [f|]].
  - destruct (iterate_shape fs f) as (chunks & [[e p]|[]] & E);
      rewrite E in *; [discriminate|].
    cbn [fst]. rewrite E. repeat split; reflexivity.
  - rewrite iterate_no_block in Hok. discriminate.
Qed.

(** X14. [compute_checksum] on a block that reads without error keeps every
    field where it stands in the field block and appends the names it had
    not found there, in the order WARC-Block-Digest, WARC-Payload-Digest
    (with a payload offset only), Content-Length. *)
Theorem compute_checksum_field_order fs f k :
  readable f ->
  let out := call (compute_checksum k) {| fields := fs; block_file := Some f |} in
  names_of (fields (fst out))
  = insertion_order (names_of fs)
      (match k with
       | Some _ => CHECKSUM_NAMES
       | None => ["WARC-Block-Digest"; "Content-Length"]%string
       end).
Proof.
  intros Hf out. subst out.
  rewrite (compute_checksum_ok k fs f Hf). cbn [fst fields].
  unfold pass_result, store_digests, names_of, setitem.
  destruct k as [k|]; rewrite !keys_assoc_set; reflexivity.
Qed.

(** ** The override names *)

(** X15. The names of [NAME_OVERRIDES] are distinct even without regard to
    case, so each capitalization of one of them is stored under that
    override's own spelling: a field set under one capitalization is read,
    and overwritten, under any other. *)
Theorem override_names_any_case o name name' v fs :
  In o NAME_OVERRIDES ->
  lower name = lower o ->
  lower name' = lower o ->
  normalize_name NAME_OVERRIDES name = o /\
  getitem NAME_OVERRIDES name' (setitem NAME_OVERRIDES name v fs) = Some v.
Proof.
  intros Hin Hname Hname'.
  assert (Hnorm : forall n, lower n = lower o -> normalize_name NAME_OVERRIDES n = o).
  { intros n Hn. unfold normalize_name. rewrite Hn.
    unfold NAME_OVERRIDES in Hin. cbn [In] in Hin.
    repeat (destruct Hin as [<-|Hin]; [reflexivity|]). destruct Hin. }
  split; [apply Hnorm, Hname|].
  unfold getitem, setitem. rewrite (Hnorm name Hname), (Hnorm name' Hname').
  apply assoc_get_set_same.
Qed.

End Builder.

(** * The claims on concrete records

    The records below spell every name the way the override set does, so the
    rendering of other names plays no part; it is taken to be the name as
    given. *)

(** A read that meets the unreadable byte raises, and the cursor stays on
    that byte. *)
Example unreadable_block_raises :
  let f p := {| content := encode "0123456789"; pos := p; fault := Some 7%nat |} in
  let r p := {| fields := []; block_file := Some (f p) |} in
  call (compute_checksum (fun s => s) (Some 3)) (r 2%nat)
  = (r 7%nat, Raise OSError) /\
  iterate (r 2%nat)
  = (r 7%nat, [encode "WARC/1.0"; CRLF; []; CRLF], Raise OSError).
Proof. vm_compute. split; reflexivity. Qed.

(** The round trip of the specification: a ten-byte block, fields set in
    lower case, checksum, serialization. *)
Example serialization_round_trip :
  let f := {| content := encode "0123456789"; pos := 0%nat; fault := None |} in
  let fs := assign_all (fun s => s)
              [("warc-type", "response");
               ("content-type", "application/http;msgtype=response")]%string [] in
  let r := fst (call (compute_checksum (fun s => s) None)
                  {| fields := fs; block_file := Some f |}) in
  decode (List.concat (snd (fst (iterate r))))
  = ("WARC/1.0" ++ decode CRLF
     ++ "WARC-Type: response" ++ decode CRLF
     ++ "Content-Type: application/http;msgtype=response" ++ decode CRLF
     ++ "WARC-Block-Digest: sha1:Q6WOYF6NTXGSBJYWZQWPM5AXW4OIU4AW" ++ decode CRLF
     ++ "Content-Length: 10" ++ decode CRLF
     ++ decode CRLF
     ++ "0123456789" ++ decode CRLF ++ decode CRLF)%string.
Proof. vm_compute. reflexivity. Qed.

(** C1 at a ten-byte block split after three bytes. *)
Lemma digests_of_payload_and_block_witness :
  let f := {| content := encode "0123456789"; pos := 0%nat; fault := None |} in
  let out := call (compute_checksum (fun s => s) (Some 3))
               {| fields := []; block_file := Some f |} in
  (readable f /\ pos f = 0%nat /\ 0 <= 3 <= Z.of_nat (List.length (content f))) /\
  snd out = Ok tt /\
  field (fun s => s) "WARC-Payload-Digest" (fst out)
    = Some (sha1_label (SHA1.sha1 (skipn (Z.to_nat 3) (content f)))) /\
  field (fun s => s) "WARC-Block-Digest" (fst out)
    = Some (sha1_label (SHA1.sha1 (content f))) /\
  (3 = 0 -> field (fun s => s) "WARC-Payload-Digest" (fst out)
            = Some (sha1_label (SHA1.sha1 (content f)))).
Proof.
  intros f out.
  assert (H1 : readable f) by exact I.
  assert (H2 : pos f = 0%nat) by reflexivity.
  assert (H3 : 0 <= 3 <= Z.of_nat (List.length (content f)))
    by (vm_compute; split; discriminate).
  split; [exact (conj H1 (conj H2 H3))|].
  exact (digests_of_payload_and_block (fun s => s) [] f 3 H1 H2 H3).
Defined.

(** C1 as stated fails when the cursor is not at the start: with the cursor
    of the block "ab" on its second byte, the block digest stored for
    [payload_offset = 0] is that of "b", not that of the full block. *)
Lemma block_digest_from_cursor_counterexample :
  let f := {| content := encode "ab"; pos := 1%nat; fault := None |} in
  let out := call (compute_checksum (fun s => s) (Some 0))
               {| fields := []; block_file := Some f |} in
  0 <= 0 <= Z.of_nat (List.length (content f)) /\
  snd out = Ok tt /\
  field (fun s => s) "WARC-Block-Digest" (fst out)
    = Some (sha1_label (SHA1.sha1 (encode "b"))) /\
  field (fun s => s) "WARC-Block-Digest" (fst out)
    <> Some (sha1_label (SHA1.sha1 (content f))).
Proof.
  intros f out. split; [vm_compute; split; discriminate|].
  vm_compute. repeat split; discriminate.
Qed.

(** C2 at a ten-byte block and three fields, one of them empty. *)
Lemma serialized_layout_witness :
  let f := {| content := encode "0123456789"; pos := 0%nat; fault := None |} in
  let assigns :=
    [("warc-type", "response"); ("WARC-Target-URI", "");
     ("Content-Length", "10")]%string in
  let fs := assign_all (fun s => s) assigns [] in
  let r := {| fields := fs; block_file := Some f |} in
  (readable f /\ pos f = 0%nat) /\
  exists chunks,
    iterate r = (r, chunks, Ok tt) /\
    List.concat chunks
    = encode "WARC/1.0" ++ CRLF
        ++ (encode "WARC-Type: response" ++ CRLF
            ++ encode "WARC-Target-URI:" ++ CRLF
            ++ encode "Content-Length: 10" ++ CRLF)
        ++ CRLF ++ content f ++ CRLF ++ CRLF /\
    map fst fs = ["WARC-Type"; "WARC-Target-URI"; "Content-Length"]%string.
Proof.
  intros f assigns fs r.
  assert (H1 : readable f) by exact I.
  assert (H2 : pos f = 0%nat) by reflexivity.
  split; [exact (conj H1 H2)|].
  exact (serialized_layout (fun s => s) assigns f H1 H2).
Defined.

(** C2 as stated fails when the cursor is not at the start: with the cursor
    of the block "ab" on its second byte, the serialized record holds "b"
    where the layout has the block from its start. It also fails for a field
    whose value is empty, which is written without the space after the
    colon. *)
Lemma serialized_from_cursor_counterexample :
  let f p := {| content := encode "ab"; pos := p; fault := None |} in
  let out := iterate {| fields := []; block_file := Some (f 1%nat) |} in
  let fs := [("WARC-Type", "")]%string in
  let out' := iterate {| fields := fs; block_file := Some (f 0%nat) |} in
  let claimed (nv : string * string) :=
    encode (fst nv ++ ": " ++ snd nv) ++ CRLF in
  (snd out = Ok tt /\
   List.concat (snd (fst out))
     = encode "WARC/1.0" ++ CRLF ++ CRLF ++ encode "b" ++ CRLF ++ CRLF /\
   List.concat (snd (fst out))
     <> encode "WARC/1.0" ++ CRLF ++ List.concat (map claimed []) ++ CRLF
          ++ encode "ab" ++ CRLF ++ CRLF) /\
  (snd out' = Ok tt /\
   List.concat (snd (fst out'))
     = encode "WARC/1.0" ++ CRLF ++ (encode "WARC-Type:" ++ CRLF) ++ CRLF
         ++ encode "ab" ++ CRLF ++ CRLF /\
   List.concat (snd (fst out'))
     <> encode "WARC/1.0" ++ CRLF ++ List.concat (map claimed fs) ++ CRLF
          ++ encode "ab" ++ CRLF ++ CRLF).
Proof. vm_compute. repeat split; discriminate. Qed.

(** C3 at the empty block, with a payload offset. *)
Lemma empty_block_checksum_witness :
  let f := {| content := []; pos := 0%nat; fault := None |} in
  let out := call (compute_checksum (fun s => s) (Some 0))
               {| fields := []; block_file := Some f |} in
  (content f = [] /\ pos f = 0%nat) /\
  snd out = Ok tt /\
  field (fun s => s) "Content-Length" (fst out) = Some "0"%string /\
  field (fun s => s) "WARC-Block-Digest" (fst out) = Some EMPTY_DIGEST /\
  field (fun s => s) "WARC-Payload-Digest" (fst out) = Some EMPTY_DIGEST.
Proof.
  intros f out.
  assert (H1 : content f = []) by reflexivity.
  assert (H2 : pos f = 0%nat) by reflexivity.
  split; [exact (conj H1 H2)|].
  exact (empty_block_checksum (fun s => s) [] f (Some 0) H1 H2).
Defined.

(** C3 as stated fails: on an attached block of length 0, with no payload
    offset, WARC-Block-Digest is set (to the label of the digest of the
    empty byte string); and with the cursor of the empty block beyond its
    end, Content-Length is the cursor. *)
Lemma empty_block_digest_counterexample :
  let r p := {| fields := [];
                block_file := Some {| content := []; pos := p; fault := None |} |} in
  let out := call (compute_checksum (fun s => s) None) (r 0%nat) in
  let out' := call (compute_checksum (fun s => s) None) (r 5%nat) in
  snd out = Ok tt /\
  field (fun s => s) "WARC-Block-Digest" (fst out) = Some EMPTY_DIGEST /\
  field (fun s => s) "WARC-Block-Digest" (fst out) <> None /\
  field (fun s => s) "Content-Length" (fst out') = Some "5"%string.
Proof. vm_compute. repeat split; discriminate. Qed.

(** C4 as stated fails: a call without a payload offset, on a record that an
    earlier call with a payload offset has been through, returns with
    WARC-Payload-Digest present. *)
Lemma stale_payload_digest_counterexample :
  let f := {| content := encode "ab"; pos := 0%nat; fault := None |} in
  let r1 := fst (call (compute_checksum (fun s => s) (Some 0))
                   {| fields := []; block_file := Some f |}) in
  let k : option Z := None in
  let out := call (compute_checksum (fun s => s) k) r1 in
  snd out = Ok tt /\
  contains (fun s => s) NAME_OVERRIDES "WARC-Payload-Digest" (fields (fst out))
    = true /\
  ~ (contains (fun s => s) NAME_OVERRIDES "WARC-Payload-Digest" (fields (fst out))
       = true
     <-> block_file r1 <> None /\ k <> None).
Proof.
  intros f r1 k out.
  assert (H : contains (fun s => s) NAME_OVERRIDES "WARC-Payload-Digest"
                (fields (fst out)) = true) by (vm_compute; reflexivity).
  split; [vm_compute; reflexivity|]. split; [exact H|].
  intros [Hyp _]. destruct (Hyp H) as [_ Hk]. apply Hk. reflexivity.
Qed.


(** C7 at a ten-byte block split after three bytes. *)
Lemma digest_field_format_witness :
  let f := {| content := encode "0123456789"; pos := 0%nat; fault := None |} in
  let r' := {| fields :=
                 [("WARC-Block-Digest", "sha1:Q6WOYF6NTXGSBJYWZQWPM5AXW4OIU4AW");
                  ("WARC-Payload-Digest", "sha1:7UKRR4DD6EDHGE7LSUHZPQ2VHQMYPQJD");
                  ("Content-Length", "10")]%string;
               block_file := Some f |} in
  call (compute_checksum (fun s => s) (Some 3))
    {| fields := []; block_file := Some f |} = (r', Ok tt) /\
  exists data,
    field (fun s => s) "WARC-Payload-Digest" r'
      = Some ("sha1:" ++ decode (Base32.b32encode (SHA1.sha1 data)))%string.
Proof.
  intros f r'.
  assert (H : call (compute_checksum (fun s => s) (Some 3))
                {| fields := []; block_file := Some f |} = (r', Ok tt))
    by (vm_compute; reflexivity).
  split; [exact H|].
  destruct (digest_field_format (fun s => s) [] f (Some 3) r' H)
    as (_ & Hp & _).
  destruct (Hp ltac:(discriminate)) as (data & Hd & _).
  exists data. exact Hd.
Defined.

(** C8 at payload offset -1. *)
Lemma negative_offset_completes_witness :
  let f := {| content := encode "ab"; pos := 0%nat; fault := None |} in
  let out := call (compute_checksum (fun s => s) (Some (-1)))
               {| fields := []; block_file := Some f |} in
  (readable f /\ in_index_range (-1) /\ -1 < 0) /\
  snd out = Ok tt /\
  field (fun s => s) "WARC-Payload-Digest" (fst out) = Some EMPTY_DIGEST /\
  field (fun s => s) "WARC-Block-Digest" (fst out)
    = Some (sha1_label (SHA1.sha1 (unread f))).
Proof.
  intros f out.
  assert (H1 : readable f) by exact I.
  assert (H2 : in_index_range (-1)) by (unfold in_index_range; lia).
  assert (H3 : -1 < 0) by reflexivity.
  split; [exact (conj H1 (conj H2 H3))|].
  exact (negative_offset_completes (fun s => s) [] f (-1) H1 H2 H3).
Defined.

(** C8 as stated fails: with payload offset -1 on the block "ab" no error is
    raised; the call returns and stores a payload digest, that of the empty
    byte string. *)
Lemma negative_offset_counterexample :
  let f := {| content := encode "ab"; pos := 0%nat; fault := None |} in
  let out := call (compute_checksum (fun s => s) (Some (-1)))
               {| fields := []; block_file := Some f |} in
  snd out = Ok tt /\
  (forall e, snd out <> Raise e) /\
  field (fun s => s) "WARC-Payload-Digest" (fst out) = Some EMPTY_DIGEST.
Proof.
  vm_compute. split; [reflexivity|]. split; [discriminate|reflexivity].
Qed.

(** * The further properties on concrete records *)

(** X3 with the cursor on the third byte of a ten-byte block. *)
Lemma payload_digest_from_cursor_witness :
  let f := {| content := encode "0123456789"; pos := 2%nat; fault := None |} in
  let out := call (compute_checksum (fun s => s) (Some 3))
               {| fields := []; block_file := Some f |} in
  (readable f /\ 0 <= 3) /\
  snd out = Ok tt /\
  field (fun s => s) "WARC-Payload-Digest" (fst out)
  = Some (sha1_label (SHA1.sha1 (skipn (pos f + Z.to_nat 3) (content f)))).
Proof.
  intros f out.
  assert (H1 : readable f) by exact I.
  assert (H2 : 0 <= 3) by discriminate.
  split; [exact (conj H1 H2)|].
  exact (payload_digest_from_cursor (fun s => s) [] f 3 H1 H2).
Defined.

(** X4 with an offset far beyond a ten-byte block. *)
Lemma offset_past_end_empty_payload_witness :
  let f := {| content := encode "0123456789"; pos := 2%nat; fault := None |} in
  let out := call (compute_checksum (fun s => s) (Some 100))
               {| fields := []; block_file := Some f |} in
  (readable f /\ in_index_range 100 /\
   Z.of_nat (List.length (content f) - pos f) <= 100) /\
  snd out = Ok tt /\
  field (fun s => s) "WARC-Payload-Digest" (fst out) = Some EMPTY_DIGEST /\
  field (fun s => s) "WARC-Block-Digest" (fst out)
  = Some (sha1_label (SHA1.sha1 (skipn (pos f) (content f)))).
Proof.
  intros f out.
  assert (H1 : readable f) by exact I.
  assert (H2 : in_index_range 100) by (unfold in_index_range; lia).
  assert (H3 : Z.of_nat (List.length (content f) - pos f) <= 100)
    by (vm_compute; discriminate).
  split; [exact (conj H1 (conj H2 H3))|].
  exact (offset_past_end_empty_payload (fun s => s) [] f 100 H1 H2 H3).
Defined.

(** X5 with a negative offset. *)
Lemma block_digest_and_length_ignore_offset_witness :
  let f := {| content := encode "0123456789"; pos := 2%nat; fault := None |} in
  let out := call (compute_checksum (fun s => s) (Some (-1)))
               {| fields := []; block_file := Some f |} in
  (readable f /\ (forall k', Some (-1) = Some k' -> in_index_range k')) /\
  snd out = Ok tt /\
  field (fun s => s) "WARC-Block-Digest" (fst out)
  = Some (sha1_label (SHA1.sha1 (skipn (pos f) (content f)))) /\
  field (fun s => s) "Content-Length" (fst out)
  = Some (str_of_int (Z.of_nat (Nat.max (pos f) (List.length (content f))))).
Proof.
  intros f out.
  assert (H1 : readable f) by exact I.
  assert (H2 : forall k', Some (-1) = Some k' -> in_index_range k')
    by (intros k' [= <-]; unfold in_index_range; lia).
  split; [exact (conj H1 H2)|].
  destruct (block_digest_and_length_ignore_offset (fun s => s) [] f (Some (-1))
              H1 H2) as (Ha & Hb & Hc & _).
  exact (conj Ha (conj Hb Hc)).
Defined.

(** X8 with the cursor beyond the end of a two-byte block: the two lengths
    differ. *)
Lemma content_length_agreement_witness :
  let f := {| content := encode "ab"; pos := 5%nat; fault := None |} in
  let r := {| fields := []; block_file := Some f |} in
  readable f /\
  field (fun s => s) "Content-Length"
    (fst (call (compute_checksum (fun s => s) None) r))
  <> field (fun s => s) "Content-Length"
       (fst (call (set_content_length (fun s => s)) r)).
Proof.
  intros f r.
  assert (H1 : readable f) by exact I.
  split; [exact H1|].
  destruct (content_length_agreement (fun s => s) [] f None H1) as [[Hto _] _].
  intros E. apply Hto in E. cbn in E. lia.
Defined.



(** X11 on a ten-byte block. *)
Lemma serialized_chunks_bounded_witness :
  let f := {| content := encode "0123456789"; pos := 0%nat; fault := None |} in
  let r := {| fields := []; block_file := Some f |} in
  readable f /\
  exists chunks,
    iterate r = (r, (head_chunks [] ++ chunks) ++ [CRLF ++ CRLF], Ok tt) /\
    List.concat chunks = skipn (pos f) (content f) /\
    Forall (fun c => c <> [] /\ Z.of_nat (List.length c) <= 4096) chunks.
Proof.
  intros f r.
  assert (H1 : readable f) by exact I.
  split; [exact H1|].
  exact (serialized_chunks_bounded [] f H1).
Defined.

(** X12 with the cursor on the third byte of a ten-byte block. *)
Lemma declared_length_and_body_witness :
  let f := {| content := encode "0123456789"; pos := 2%nat; fault := None |} in
  let r := fst (call (compute_checksum (fun s => s) None)
                  {| fields := []; block_file := Some f |}) in
  (readable f /\ (pos f <= List.length (content f))%nat) /\
  exists chunks body declared,
    iterate r = (r, chunks, Ok tt) /\
    List.concat chunks
    = encode VERSION ++ CRLF ++ to_bytes (fields r) ++ CRLF
        ++ body ++ CRLF ++ CRLF /\
    In ("Content-Length"%string, declared) (fields r) /\
    parse_int declared = Some (Z.of_nat (pos f + List.length body)).
Proof.
  intros f r.
  assert (H1 : readable f) by exact I.
  assert (H2 : (pos f <= List.length (content f))%nat) by (cbn; lia).
  split; [exact (conj H1 H2)|].
  exact (declared_length_and_body (fun s => s) [] f None H1 H2).
Defined.

(** X13 on a ten-byte block. *)
Lemma serialization_repeatable_witness :
  let r := {| fields := [];
              block_file := Some {| content := encode "0123456789";
                                    pos := 0%nat; fault := None |} |} in
  let r' := fst (fst (iterate r)) in
  snd (iterate r) = Ok tt /\
  iterate r' = iterate r /\
  call (compute_checksum (fun s => s) (Some 3)) r'
  = call (compute_checksum (fun s => s) (Some 3)) r /\
  call (set_content_length (fun s => s)) r'
  = call (set_content_length (fun s => s)) r.
Proof.
  intros r r'.
  assert (H1 : snd (iterate r) = Ok tt) by (vm_compute; reflexivity).
  split; [exact H1|].
  exact (serialization_repeatable (fun s => s) r (Some 3) H1).
Defined.

(** X14 on a record that has its mandatory fields. *)
Lemma compute_checksum_field_order_witness :
  let f := {| content := encode "0123456789"; pos := 0%nat; fault := None |} in
  let fs := fields (fst (call (set_common_fields (fun s => s) "response"
                                 "application/http;msgtype=response"
                                 "2014-01-01T00:00:00Z"
                                 "urn:uuid:00000000-0000-0000-0000-000000000000")
                           init)) in
  let out := call (compute_checksum (fun s => s) (Some 3))
               {| fields := fs; block_file := Some f |} in
  readable f /\
  names_of (fields (fst out))
  = ["WARC-Type"; "Content-Type"; "WARC-Date"; "WARC-Record-ID";
     "WARC-Block-Digest"; "WARC-Payload-Digest"; "Content-Length"]%string.
Proof.
  intros f fs out.
  assert (H1 : readable f) by exact I.
  split; [exact H1|].
  exact (compute_checksum_field_order (fun s => s) fs f (Some 3) H1).
Defined.

(** X15 with Content-Length in lower case and in upper case. *)
Lemma override_names_any_case_witness :
  (In "Content-Length"%string NAME_OVERRIDES /\
   lower "content-length" = lower "Content-Length" /\
   lower "CONTENT-LENGTH" = lower "Content-Length") /\
  normalize_name (fun s => s) NAME_OVERRIDES "content-length"
  = "Content-Length"%string /\
  getitem (fun s => s) NAME_OVERRIDES "CONTENT-LENGTH"
    (setitem (fun s => s) NAME_OVERRIDES "content-length" "10" [])
  = Some "10"%string.
Proof.
  assert (H1 : In "Content-Length"%string NAME_OVERRIDES) by (cbn; tauto).
  assert (H2 : lower "content-length" = lower "Content-Length") by reflexivity.
  assert (H3 : lower "CONTENT-LENGTH" = lower "Content-Length") by reflexivity.
  split; [exact (conj H1 (conj H2 H3))|].
  exact (override_names_any_case (fun s => s) "Content-Length" "content-length"
           "CONTENT-LENGTH" "10" [] H1 H2 H3).
Defined.
